(** * util.hpp: coordinates, the coordinate range, Grid and RingBuffer

    A shallow embedding of [src/util.hpp].  C++ [int] is a [Z] together with
    its range: every arithmetic operation of the source is a checked operation
    whose result is [Undef] when the mathematical result is not representable
    (signed overflow has no defined behaviour in C++).  Heap storage obtained
    with [new T[n]] lives in a store that maps block addresses to arrays of
    cells, so that two objects holding the same pointer share their cells. *)

From stdpp Require Import gmap strings list fin_maps sorting.

Local Open Scope Z_scope.

(* ===================================================================== *)
(** ** Outcomes of running a piece of C++                                 *)
(* ===================================================================== *)

(** A computation returns a value, leaves by [throw], or has no defined
    behaviour. *)
Inductive outcome (A : Type) : Type :=
| Ret (a : A)
| Throw (what : string)
| Undef.

Arguments Ret {A} a.
Arguments Throw {A} what.
Arguments Undef {A}.

#[global] Instance outcome_ret : MRet outcome := fun A a => Ret a.

#[global] Instance outcome_bind : MBind outcome := fun A B k m =>
  match m with
  | Ret a => k a
  | Throw s => Throw s
  | Undef => Undef
  end.

(* ===================================================================== *)
(** ** The type int                                                       *)
(* ===================================================================== *)

Definition int_min : Z := - 2 ^ 31.
Definition int_max : Z := 2 ^ 31 - 1.

Definition in_int (z : Z) : Prop := int_min <= z <= int_max.

Definition fits (z : Z) : bool := (int_min <=? z) && (z <=? int_max).

Definition chk (z : Z) : outcome Z := if fits z then Ret z else Undef.

Definition int_add (a b : Z) : outcome Z := chk (a + b).
Definition int_sub (a b : Z) : outcome Z := chk (a - b).
Definition int_mul (a b : Z) : outcome Z := chk (a * b).

(** [a % b]: truncated division; undefined when [b] is zero or when the
    quotient is not representable. *)
Definition int_rem (a b : Z) : outcome Z :=
  if b =? 0 then Undef
  else if fits (Z.quot a b) then Ret (Z.rem a b) else Undef.

(** Conversion of [bool] to [int], as in [(end_ < begin_) * capacity()]. *)
Definition b2z (b : bool) : Z := if b then 1 else 0.

(* ===================================================================== *)
(** ** Coordinates                                                        *)
(* ===================================================================== *)

Inductive Dir : Type := up | down | left | right.

(** [operator - (Dir)] *)
Definition Dir_neg (dir : Dir) : Dir :=
  match dir with
  | up => down
  | down => up
  | left => right
  | right => left
  end.

Record Coord : Type := mkCoord { x : Z; y : Z }.

(** [operator == (Coord, Coord)] and [operator != (Coord, Coord)] *)
Definition Coord_eq (a b : Coord) : bool := (x a =? x b) && (y a =? y b).
Definition Coord_ne (a b : Coord) : bool := negb (Coord_eq a b).

(** [operator + (Coord, Dir)] *)
Definition Coord_add (a : Coord) (dir : Dir) : outcome Coord :=
  match dir with
  | up => y' ← int_sub (y a) 1; Ret (mkCoord (x a) y')
  | down => y' ← int_add (y a) 1; Ret (mkCoord (x a) y')
  | left => x' ← int_sub (x a) 1; Ret (mkCoord x' (y a))
  | right => x' ← int_add (x a) 1; Ret (mkCoord x' (y a))
  end.

(** [operator - (Coord, Coord)]: the spec's [direction_between(a, b)].  The
    second test of each branch is evaluated only when the first one fails;
    when [a.x == b.x] the [else if] is never entered. *)
Definition Coord_sub (a b : Coord) : outcome Dir :=
  if x a =? x b then
    t ← int_sub (y b) 1;
    if y a =? t then Ret up
    else
      t' ← int_add (y b) 1;
      if y a =? t' then Ret down else Throw "Not a dir"
  else if y a =? y b then
    t ← int_sub (x b) 1;
    if x a =? t then Ret left
    else
      t' ← int_add (x b) 1;
      if x a =? t' then Ret right else Throw "Not a dir"
  else Throw "Not a dir".

(** [is_neighbor]; [std::abs] of [INT_MIN] is undefined. *)
Definition int_abs (a : Z) : outcome Z := chk (Z.abs a).

Definition is_neighbor (a b : Coord) : outcome bool :=
  if x a =? x b then
    d ← int_sub (y a) (y b); n ← int_abs d; Ret (n =? 1)
  else if y a =? y b then
    d ← int_sub (x a) (x b); n ← int_abs d; Ret (n =? 1)
  else Ret false.

(* ===================================================================== *)
(** ** Coordinate grid                                                    *)
(* ===================================================================== *)

(** [const int w = 30, h = 30;] *)
Definition w : Z := 30.
Definition h : Z := 30.

Definition valid (a : Coord) : bool :=
  (0 <=? x a) && (x a <? w) && (0 <=? y a) && (y a <? h).

(** [struct CoordRange] and its iterator. *)
Module CoordRange.

Record iterator : Type := mkIt { coord : Coord }.

(** [operator * ()] *)
Definition deref (it : iterator) : Coord := coord it.

(** [operator ++ ()] *)
Definition incr (it : iterator) : outcome iterator :=
  x' ← int_add (x (coord it)) 1;
  if x' =? w then
    y' ← int_add (y (coord it)) 1;
    Ret (mkIt (mkCoord 0 y'))
  else Ret (mkIt (mkCoord x' (y (coord it)))).

(** [operator ==] and [operator !=] on iterators *)
Definition eq (it that : iterator) : bool := Coord_eq (coord it) (coord that).
Definition ne (it that : iterator) : bool := Coord_ne (coord it) (coord that).

Definition begin : iterator := mkIt (mkCoord 0 0).
Definition end_ : iterator := mkIt (mkCoord 0 h).

(** The range-based loop [for (Coord c : coords) ...], started at [it],
    collecting every [c] the body is run on.  [None] stands for a loop
    that has not finished within [fuel] iterations or that runs into
    undefined behaviour. *)
Fixpoint traverse (fuel : nat) (it : iterator) : option (list Coord) :=
  match fuel with
  | O => None
  | S fuel' =>
      if ne it end_ then
        match incr it with
        | Ret it' => cons (deref it) <$> traverse fuel' it'
        | _ => None
        end
      else Some []
  end.

(** What the specification compares the enumeration with: the nested
    loops [for y in 0..H-1: for x in 0..W-1: visit (x, y)]. *)
Definition row (W yy : Z) : list Coord := (λ xx, mkCoord xx yy) <$> seqZ 0 W.

Definition nested_loops (W H : Z) : list Coord := seqZ 0 H ≫= row W.

End CoordRange.

(* ===================================================================== *)
(** ** The store                                                          *)
(* ===================================================================== *)

(** Addresses of the blocks obtained with [new T[n]]. *)
Abbreviation loc := positive.

Inductive ptr : Type :=
| nullptr
| Ptr (l : loc).

#[global] Instance ptr_eq_dec : EqDecision ptr.
Proof. solve_decision. Defined.

(** A cell of an array of [T] holds a value, or is indeterminate ([None]). *)
Abbreviation heap T := (gmap loc (list (option T))).

(** A [T*] into an array: the array and an offset. *)
Abbreviation elem_ptr := (ptr * Z)%type.

Section Store.
Context {T : Type}.

(** What [new T[n]] leaves in each cell: [Some] of the default-constructed
    value for a class type, [None] for a scalar type such as [int]. *)
Variable T_new : option T.

(** [new T[n]]: a negative length is rejected with
    [std::bad_array_new_length]; the store itself is unbounded. *)
Definition new_array (hp : heap T) (n : Z) : outcome (heap T * ptr) :=
  if n <? 0 then Throw "bad_array_new_length"
  else
    let l := fresh (dom hp) in
    Ret (<[l := replicate (Z.to_nat n) T_new]> hp, Ptr l).

(** [delete [] p]: nothing for a null pointer, undefined when the block is
    not (or no longer) allocated. *)
Definition delete_array (hp : heap T) (p : ptr) : outcome (heap T) :=
  match p with
  | nullptr => Ret hp
  | Ptr l =>
      match hp !! l with
      | Some _ => Ret (delete l hp)
      | None => Undef
      end
  end.

(** The cell [p[i]], when [p] is a live array and [i] is within it. *)
Definition load_cell (hp : heap T) (p : ptr) (i : Z) : outcome (option T) :=
  match p with
  | nullptr => Undef
  | Ptr l =>
      match hp !! l with
      | Some a =>
          if 0 <=? i then
            match a !! Z.to_nat i with
            | Some c => Ret c
            | None => Undef
            end
          else Undef
      | None => Undef
      end
  end.

(** Reading the value of [p[i]]; reading an indeterminate cell is
    undefined. *)
Definition load (hp : heap T) (p : ptr) (i : Z) : outcome T :=
  c ← load_cell hp p i;
  match c with
  | Some v => Ret v
  | None => Undef
  end.

(** [p[i] = c] *)
Definition store (hp : heap T) (p : ptr) (i : Z) (c : option T)
  : outcome (heap T) :=
  match p with
  | nullptr => Undef
  | Ptr l =>
      match hp !! l with
      | Some a =>
          if (0 <=? i) && (i <? Z.of_nat (length a))
          then Ret (<[l := <[Z.to_nat i := c]> a]> hp)
          else Undef
      | None => Undef
      end
  end.

(** [std::fill(first, last, v)], element after element. *)
Fixpoint fill_loop (hp : heap T) (p : ptr) (i : Z) (n : nat) (v : T)
  : outcome (heap T) :=
  match n with
  | O => Ret hp
  | S n' => hp' ← store hp p i (Some v); fill_loop hp' p (i + 1) n' v
  end.

Definition std_fill (hp : heap T) (first last : elem_ptr) (v : T)
  : outcome (heap T) :=
  if decide (first.1 = last.1)
  then fill_loop hp first.1 first.2 (Z.to_nat (last.2 - first.2)) v
  else Undef.

(** [std::copy(first, last, d_first)], element after element, each cell
    read from the store as the earlier assignments left it.  (The standard
    asks that [d_first] lie outside [first, last); the loop is what the
    algorithm does with any destination.) *)
Fixpoint copy_loop (hp : heap T) (src : ptr) (i : Z) (n : nat)
    (dst : ptr) (j : Z) : outcome (heap T) :=
  match n with
  | O => Ret hp
  | S n' =>
      c ← load_cell hp src i;
      hp' ← store hp dst j c;
      copy_loop hp' src (i + 1) n' dst (j + 1)
  end.

Definition std_copy (hp : heap T) (first last d_first : elem_ptr)
  : outcome (heap T) :=
  if decide (first.1 = last.1)
  then copy_loop hp first.1 first.2 (Z.to_nat (last.2 - first.2))
         d_first.1 d_first.2
  else Undef.

End Store.

(** Reading a data member that a constructor may have left without a value:
    [None] is an indeterminate [int]. *)
Definition rd (m : option Z) : outcome Z :=
  match m with
  | Some z => Ret z
  | None => Undef
  end.

(* ===================================================================== *)
(** ** Grid                                                               *)
(* ===================================================================== *)

Module Grid.

(** The members [T* data; int w,h;].  A member that no initialiser of a
    constructor mentions is indeterminate. *)
Record t : Type := mk { data : ptr; w : option Z; h : option Z }.

Section Methods.
Context {T : Type}.
Variable T_new : option T.

(** [size()] *)
Definition size (g : t) : outcome Z :=
  gw ← rd (w g); gh ← rd (h g); int_mul gw gh.

(** [begin()] and [end()]: [data] and [&data[w*h]] *)
Definition begin (g : t) : outcome elem_ptr := Ret (data g, 0).
Definition end_ (g : t) : outcome elem_ptr :=
  n ← size g; Ret (data g, n).

(** [Grid(T const& init, int w, int h)]: the members are initialised in
    the order of their declaration, then the body fills the array. *)
Definition ctor (hp : heap T) (init : T) (w' h' : Z)
  : outcome (heap T * t) :=
  n ← int_mul w' h';
  '(hp1, p) ← new_array T_new hp n;
  let g := mk p (Some w') (Some h') in
  first ← begin g;
  last ← end_ g;
  hp2 ← std_fill hp1 first last init;
  Ret (hp2, g).

(** [Grid(Grid const& that)] *)
Definition copy_ctor (hp : heap T) (that : t) : outcome (heap T * t) :=
  tw ← rd (w that);
  th ← rd (h that);
  n ← int_mul tw th;
  '(hp1, p) ← new_array T_new hp n;
  let g := mk p (Some tw) (Some th) in
  first ← begin that;
  last ← end_ that;
  hp2 ← std_copy hp1 first last (data g, 0);
  Ret (hp2, g).

(** [Grid(Grid&& that)]: the only member initialiser is [data(that.data)],
    and the body clears [that.data].  The result is the new object and
    the source object afterwards. *)
Definition move_ctor (that : t) : t * t :=
  (mk (data that) None None, mk nullptr (w that) (h that)).

(** [~Grid()] *)
Definition dtor (hp : heap T) (g : t) : outcome (heap T) :=
  delete_array hp (data g).

(** [operator [] (Coord a)]: the element [data[a.x + w*a.y]]. *)
Definition subscript (g : t) (a : Coord) : outcome elem_ptr :=
  gw ← rd (w g);
  m ← int_mul gw (y a);
  i ← int_add (x a) m;
  Ret (data g, i).

(** Reading through, and assigning through, the reference that
    [operator []] returns: the spec's [get] and [set]. *)
Definition get (hp : heap T) (g : t) (a : Coord) : outcome T :=
  e ← subscript g a; load hp e.1 e.2.

Definition set (hp : heap T) (g : t) (a : Coord) (v : T)
  : outcome (heap T) :=
  e ← subscript g a; store hp e.1 e.2 (Some v).

End Methods.

End Grid.

(* ===================================================================== *)
(** ** Ring buffer                                                        *)
(* ===================================================================== *)

Module RingBuffer.

(** The members [T* data; int capacity_; int begin_, end_;]. *)
Record t : Type :=
  mk { data : ptr; capacity_ : Z; begin_ : Z; end_ : Z }.

Definition set_begin (r : t) (b : Z) : t :=
  mk (data r) (capacity_ r) b (end_ r).
Definition set_end (r : t) (e : Z) : t :=
  mk (data r) (capacity_ r) (begin_ r) e.

Section Methods.
Context {T : Type}.
Variable T_new : option T.

(** [RingBuffer(int capacity_)] *)
Definition ctor (hp : heap T) (capacity' : Z) : outcome (heap T * t) :=
  '(hp1, p) ← new_array T_new hp capacity';
  Ret (hp1, mk p capacity' 0 0).

(** [RingBuffer(RingBuffer const& that)]: [data] is initialised with
    [that.data] itself, then the body copies [that.data] onto [data]. *)
Definition copy_ctor (hp : heap T) (that : t) : outcome (heap T * t) :=
  let r := mk (data that) (capacity_ that) (begin_ that) (end_ that) in
  hp1 ← std_copy hp (data that, 0) (data that, capacity_ r) (data r, 0);
  Ret (hp1, r).

(** [~RingBuffer()] *)
Definition dtor (hp : heap T) (r : t) : outcome (heap T) :=
  delete_array hp (data r).

Definition capacity (r : t) : Z := capacity_ r.

(** [size()]: [end_ - begin_ + (end_ < begin_) * capacity()] *)
Definition size (r : t) : outcome Z :=
  d ← int_sub (end_ r) (begin_ r);
  m ← int_mul (b2z (end_ r <? begin_ r)) (capacity r);
  int_add d m.

Definition empty (r : t) : bool := begin_ r =? end_ r.

(** [front()], read *)
Definition front (hp : heap T) (r : t) : outcome T :=
  load hp (data r) (begin_ r).

Definition push_front (hp : heap T) (r : t) (v : T)
  : outcome (heap T * t) :=
  b ← int_sub (begin_ r) 1;
  b' ← (if b <? 0 then int_sub (capacity r) 1 else Ret b);
  hp1 ← store hp (data r) b' (Some v);
  Ret (hp1, set_begin r b').

Definition pop_front (r : t) : outcome t :=
  b ← int_add (begin_ r) 1;
  Ret (set_begin r (if b >=? capacity r then 0 else b)).

(** [back()], read *)
Definition back (hp : heap T) (r : t) : outcome T :=
  if end_ r =? 0 then
    i ← int_sub (capacity r) 1; load hp (data r) i
  else
    i ← int_sub (end_ r) 1; load hp (data r) i.

Definition push_back (hp : heap T) (r : t) (v : T)
  : outcome (heap T * t) :=
  hp1 ← store hp (data r) (end_ r) (Some v);
  e ← int_add (end_ r) 1;
  Ret (hp1, set_end r (if e >=? capacity r then 0 else e)).

Definition pop_back (r : t) : outcome t :=
  e ← int_sub (end_ r) 1;
  e' ← (if e <? 0 then int_sub (capacity r) 1 else Ret e);
  Ret (set_end r e').

(** [operator[] (int i)]: [data[(begin_+i) % capacity_]], the spec's
    [at(i)]. *)
Definition at_ (hp : heap T) (r : t) (i : Z) : outcome T :=
  s ← int_add (begin_ r) i;
  k ← int_rem s (capacity_ r);
  load hp (data r) k.

(** The four mutators, as the steps of a run. *)
Inductive op : Type :=
| PushFront (v : T)
| PushBack (v : T)
| PopFront
| PopBack.

Definition step (hp : heap T) (r : t) (o : op) : outcome (heap T * t) :=
  match o with
  | PushFront v => push_front hp r v
  | PushBack v => push_back hp r v
  | PopFront => r' ← pop_front r; Ret (hp, r')
  | PopBack => r' ← pop_back r; Ret (hp, r')
  end.

Fixpoint run (hp : heap T) (r : t) (ops : list op)
  : outcome (heap T * t) :=
  match ops with
  | [] => Ret (hp, r)
  | o :: ops' => s ← step hp r o; run s.1 s.2 ops'
  end.

End Methods.

Arguments op : clear implicits.
Arguments PopFront {T}.
Arguments PopBack {T}.

End RingBuffer.

(* ===================================================================== *)
(** ** Notions the specification uses                                     *)
(* ===================================================================== *)

(** Manhattan distance of two coordinates, over the integers. *)
Definition manhattan (a b : Coord) : Z :=
  Z.abs (x a - x b) + Z.abs (y a - y b).

(** [b.x ± 1] and [b.y ± 1] are representable: the arithmetic of
    [operator - (Coord, Coord)] on [b] does not overflow. *)
Definition interior (b : Coord) : Prop :=
  (int_min < x b < int_max) ∧ (int_min < y b < int_max).

(** The coordinates of a grid of [W] columns and [H] rows. *)
Definition in_bounds (W H : Z) (c : Coord) : Prop :=
  (0 ≤ x c < W) ∧ (0 ≤ y c < H).

#[global] Instance Coord_eq_dec : EqDecision Coord.
Proof. solve_decision. Defined.

#[global] Instance Dir_eq_dec : EqDecision Dir.
Proof. solve_decision. Defined.

(** The class invariant of a [Grid] of [W] by [H] cells whose array lives
    in the store [hp]. *)
Definition Grid_wf {T} (hp : heap T) (g : Grid.t) (W H : Z) : Prop :=
  Grid.w g = Some W ∧ Grid.h g = Some H ∧ W * H ≤ int_max ∧
  ∃ l a, Grid.data g = Ptr l ∧ hp !! l = Some a ∧
         Z.of_nat (length a) = W * H.

(** The class invariant of a [RingBuffer]: a live array of [capacity_]
    cells, a positive capacity, and both cursors within [0, capacity_). *)
Definition RingBuffer_wf {T} (hp : heap T) (r : RingBuffer.t) : Prop :=
  (1 ≤ RingBuffer.capacity_ r ≤ int_max) ∧
  (0 ≤ RingBuffer.begin_ r < RingBuffer.capacity_ r) ∧
  (0 ≤ RingBuffer.end_ r < RingBuffer.capacity_ r) ∧
  ∃ l a, RingBuffer.data r = Ptr l ∧ hp !! l = Some a ∧
         Z.of_nat (length a) = RingBuffer.capacity_ r.

(** A cursor of a ring of [K] slots after a step forward, and after a step
    backward. *)
Definition next (K i : Z) : Z := if i + 1 >=? K then 0 else i + 1.
Definition prev (K i : Z) : Z := if i - 1 <? 0 then K - 1 else i - 1.

(** A buffer whose window starts at slot 0 and holds the values [done], in
    the order of the list, in the slots [0 .. length done - 1] of the array
    at [l]. *)
Definition RingBuffer_filled {T} (hp : heap T) (r : RingBuffer.t) (l : loc)
    (done : list T) : Prop :=
  RingBuffer.data r = Ptr l ∧
  RingBuffer.begin_ r = 0 ∧
  RingBuffer.end_ r = Z.of_nat (length done) ∧
  ∃ a, hp !! l = Some a ∧
       Z.of_nat (length a) = RingBuffer.capacity_ r ∧
       ∀ (i : nat) v, done !! i = Some v → a !! i = Some (Some v).

(* ===================================================================== *)
(** ** Further code: the table of directions, loops over a Grid           *)
(* ===================================================================== *)

(** [const Dir dirs[] = {Dir::up, Dir::down, Dir::left, Dir::right};] *)
Definition dirs : list Dir := [up; down; left; right].

Section PointerLoop.
Context {T : Type}.

(** The loop [for (it = first; it != last; ++it)] over pointers into an
    array, as the range-based [for (T const& v : grid)] runs it, collecting
    the value read through [*it] at each round.  [None] stands for a loop
    that has not finished within [fuel] rounds or that reads a cell it must
    not read. *)
Fixpoint range_for (fuel : nat) (hp : heap T) (it last : elem_ptr)
  : option (list T) :=
  match fuel with
  | O => None
  | S fuel' =>
      if decide (it = last) then Some []
      else
        match load hp it.1 it.2 with
        | Ret v => cons v <$> range_for fuel' hp (it.1, it.2 + 1) last
        | _ => None
        end
  end.

(** [for (T const& v : g)], from [g.begin()] to [g.end()]. *)
Definition Grid_elements (fuel : nat) (hp : heap T) (g : Grid.t)
  : option (list T) :=
  match Grid.begin g, Grid.end_ g with
  | Ret first, Ret last => range_for fuel hp first last
  | _, _ => None
  end.

End PointerLoop.

(* ===================================================================== *)
(** ** Further notions                                                    *)
(* ===================================================================== *)

(** The differences [a.x - b.x] and [a.y - b.y] and their absolute values
    are representable: the arithmetic of [is_neighbor] does not overflow. *)
Definition diff_ok (a b : Coord) : Prop :=
  (int_min < x a - x b ≤ int_max) ∧ (int_min < y a - y b ≤ int_max).

(** The row-major position of a coordinate in a grid of [W] columns, and
    the coordinate at a position. *)
Definition cell_index (W : Z) (c : Coord) : Z := x c + W * y c.
Definition coord_at (W k : Z) : Coord := mkCoord (k `mod` W) (k `div` W).

(** The logical content of a ring buffer: [vs] are the values of its
    window, front first; they sit in the slots [begin_], [begin_ + 1], ...
    taken modulo the capacity, and [end_] is the slot behind the last. *)
Definition RingBuffer_holds {T} (hp : heap T) (r : RingBuffer.t)
    (vs : list T) : Prop :=
  RingBuffer_wf hp r ∧
  Z.of_nat (length vs) < RingBuffer.capacity_ r ∧
  RingBuffer.end_ r
    = (RingBuffer.begin_ r + Z.of_nat (length vs))
        `mod` RingBuffer.capacity_ r ∧
  ∃ l a, RingBuffer.data r = Ptr l ∧ hp !! l = Some a ∧
    ∀ (i : nat) v, vs !! i = Some v →
      a !! Z.to_nat ((RingBuffer.begin_ r + Z.of_nat i)
                       `mod` RingBuffer.capacity_ r) = Some (Some v).

(* ===================================================================== *)
(** ** Statistics utilities                                               *)
(* ===================================================================== *)

(** The type [double] and its arithmetic are kept abstract: [D] stands for
    [double], the operations for [+], [-], [*] on it, [d_of_size] for the
    conversion of a [size_t], [to_double] for the conversion of a [T], and
    [show] for the text that [out << x] writes for a double.  What is modelled
    exactly is the index arithmetic on [size_t], an unsigned type of
    [size_bits] bits, the accesses to the vectors and the order of the
    output. *)
Section Statistics.
Context {T D : Type}.
Variables (to_double : T → D) (dadd dsub dmul : D → D → D).
Variables (d_of_size : Z → D) (d_one d_quarter : D).
Variable size_bits : Z.
Variable sort : list T → list T.
Variable show : D → string.

(** Arithmetic on [size_t] wraps around. *)
Definition size_wrap (z : Z) : Z := z `mod` 2 ^ size_bits.

(** [lerp(a, b, t)]: [t*a + (1-t)*b] *)
Definition lerp (a b t : D) : D := dadd (dmul t a) (dmul (dsub d_one t) b).

(** [v[k]] on a [std::vector]: unchecked, undefined outside the vector. *)
Definition vec_at (v : list T) (k : Z) : outcome T :=
  match v !! Z.to_nat k with
  | Some e => Ret e
  | None => Undef
  end.

(** The body of the loop of [quantiles] for one [i]: the value pushed. *)
Definition quantiles_body (xs sorted : list T) (i : Z) : outcome D :=
  let j := size_wrap (i * size_wrap (Z.of_nat (length xs) - 1)) in
  if j `mod` 4 =? 0 then
    e ← vec_at sorted (j `div` 4); Ret (to_double e)
  else
    a ← vec_at sorted (j `div` 4);
    b ← vec_at sorted (size_wrap (j + 3) `div` 4);
    Ret (lerp (to_double a) (to_double b)
           (dmul (d_of_size (j `mod` 4)) d_quarter)).

(** The loop [for (size_t i=0 ; i<5 ; ++i)], over the values of [i] still
    to come, with the vector [quantiles] built so far. *)
Fixpoint quantiles_loop (xs sorted : list T) (acc : list D) (todo : list Z)
  : outcome (list D) :=
  match todo with
  | [] => Ret acc
  | i :: todo' =>
      q ← quantiles_body xs sorted i;
      quantiles_loop xs sorted (acc ++ [q]) todo'
  end.

(** [quantiles(xs)] *)
Definition quantiles (xs : list T) : outcome (list D) :=
  quantiles_loop xs (sort xs) [] [0; 1; 2; 3; 4].

(** What [quantiles] pushes for [i] on a non-empty input of [n] elements:
    with [j = i*(n-1)], the element [s[j/4]] itself when 4 divides [j],
    otherwise the interpolation between [s[j/4]] and its successor. *)
Definition quantile_of (s : list T) (n i : Z) (q : D) : Prop :=
  let j := i * (n - 1) in
  ∃ a, s !! Z.to_nat (j `div` 4) = Some a ∧
    if j `mod` 4 =? 0 then q = to_double a
    else ∃ b, s !! S (Z.to_nat (j `div` 4)) = Some b ∧
           q = lerp (to_double a) (to_double b)
                 (dmul (d_of_size (j `mod` 4)) d_quarter).

(** [operator << (std::ostream&, std::vector<double>)]: the loop over the
    elements, with the flag [first] and the text written so far. *)
Fixpoint print_loop (out : string) (first : bool) (xs : list D) : string :=
  match xs with
  | [] => out
  | e :: xs' =>
      let out1 := if negb first then out +:+ ", " else out in
      print_loop (out1 +:+ show e) false xs'
  end.

Definition print_vector (out : string) (xs : list D) : string :=
  print_loop (out +:+ "[") true xs +:+ "]".

End Statistics.

(** The text of a list of pieces with a separator between neighbours. *)
Fixpoint join (sep : string) (pieces : list string) : string :=
  match pieces with
  | [] => ""
  | [p] => p
  | p :: rest => p +:+ sep +:+ join sep rest
  end.

(* ===================================================================== *)
(** * Properties                                                          *)
(* ===================================================================== *)

(** ** Checked arithmetic *)

Lemma fits_in_int z : in_int z → fits z = true.
Proof.
  unfold in_int, fits. intros [? ?].
  apply andb_true_intro; split; apply Z.leb_le; assumption.
Qed.

Lemma chk_Ret z : in_int z → chk z = Ret z.
Proof. intros Hz. unfold chk. now rewrite fits_in_int. Qed.

Lemma int_add_Ret a b : in_int (a + b) → int_add a b = Ret (a + b).
Proof. apply chk_Ret. Qed.

Lemma int_sub_Ret a b : in_int (a - b) → int_sub a b = Ret (a - b).
Proof. apply chk_Ret. Qed.

Lemma int_mul_Ret a b : in_int (a * b) → int_mul a b = Ret (a * b).
Proof. apply chk_Ret. Qed.

Lemma int_rem_Ret a b :
  0 ≤ a → 0 < b → in_int a → int_rem a b = Ret (a `mod` b).
Proof.
  intros Ha Hb [_ Hmax]. unfold int_rem.
  destruct (Z.eqb_spec b 0) as [->|_]; [lia|].
  rewrite fits_in_int.
  - now rewrite Z.rem_mod_nonneg by lia.
  - unfold in_int, int_min in *. rewrite Z.quot_div_nonneg by lia.
    split.
    + transitivity 0; [lia | apply Z.div_pos; lia].
    + transitivity a; [apply Z.div_le_upper_bound; nia | lia].
Qed.

Lemma int_bounds : int_min = -2147483648 ∧ int_max = 2147483647.
Proof. split; reflexivity. Qed.

(** Rewrites every checked operation whose result is shown to fit. *)
Ltac int_ok :=
  cbn [mbind outcome_bind];
  repeat
    (first
       [ rewrite int_add_Ret by (unfold in_int; pose proof int_bounds; lia)
       | rewrite int_sub_Ret by (unfold in_int; pose proof int_bounds; lia)
       | rewrite int_mul_Ret by (unfold in_int; pose proof int_bounds; nia) ];
     cbn [mbind outcome_bind]).

(** ** Geometry *)

Lemma Dir_neg_involutive d : Dir_neg (Dir_neg d) = d.
Proof. now destruct d. Qed.

Lemma Dir_neg_neq d : Dir_neg d ≠ d.
Proof. now destruct d. Qed.

Lemma valid_in_bounds c : valid c = true ↔ in_bounds w h c.
Proof.
  unfold valid, in_bounds. rewrite !andb_true_iff.
  rewrite !Z.leb_le, !Z.ltb_lt. tauto.
Qed.

Lemma w_h_bounds : (0 < w < int_max) ∧ (0 < h < int_max).
Proof. repeat split; reflexivity. Qed.

(** A step from a coordinate whose neighbours are representable. *)
Lemma Coord_add_interior c d :
  interior c →
  Coord_add c d = Ret (match d with
                       | up => mkCoord (x c) (y c - 1)
                       | down => mkCoord (x c) (y c + 1)
                       | left => mkCoord (x c - 1) (y c)
                       | right => mkCoord (x c + 1) (y c)
                       end).
Proof.
  intros [Hx Hy]. destruct d; unfold Coord_add; now int_ok.
Qed.

Lemma Coord_sub_interior a b :
  interior b →
  Coord_sub a b =
    if x a =? x b then
      if y a =? y b - 1 then Ret up
      else if y a =? y b + 1 then Ret down else Throw "Not a dir"
    else if y a =? y b then
      if x a =? x b - 1 then Ret left
      else if x a =? x b + 1 then Ret right else Throw "Not a dir"
    else Throw "Not a dir".
Proof.
  intros [Hx Hy]. unfold Coord_sub. now int_ok.
Qed.

Lemma valid_interior c : valid c = true → interior c.
Proof.
  rewrite valid_in_bounds. unfold in_bounds, interior.
  pose proof w_h_bounds. pose proof int_bounds. lia.
Qed.

(** C5, as stated in the specification, fails on the code: with
    [direction_between(a, b)] being [operator - (a, b)], from c = (5,5) the
    step up leads to (5,4), both valid, and [direction_between(c, c + up)]
    returns down. *)
Lemma direction_between_step_counterexample :
  valid (mkCoord 5 5) = true ∧
  Coord_add (mkCoord 5 5) up = Ret (mkCoord 5 4) ∧
  valid (mkCoord 5 4) = true ∧
  Coord_sub (mkCoord 5 5) (mkCoord 5 4) = Ret down ∧
  Coord_sub (mkCoord 5 5) (mkCoord 5 4) ≠ Ret up.
Proof. repeat split; try reflexivity. discriminate. Qed.

(** C5, amended: for every valid coordinate c and direction d such that
    c + d is also valid, [direction_between] applied to c + d and c, in this
    order, returns d; applied to c and c + d it returns the inverse
    direction [-d]. *)
Theorem direction_between_step (c c' : Coord) (d : Dir) :
  valid c = true →
  Coord_add c d = Ret c' →
  valid c' = true →
  Coord_sub c' c = Ret d ∧ Coord_sub c c' = Ret (Dir_neg d).
Proof.
  intros Hc Hadd Hc'.
  apply valid_interior in Hc, Hc'.
  rewrite Coord_add_interior in Hadd by assumption.
  rewrite !Coord_sub_interior by assumption.
  destruct d; injection Hadd as <-; cbn [x y Dir_neg];
    repeat match goal with
           | |- context [?u =? ?v] => destruct (Z.eqb_spec u v); try lia
           end; split; reflexivity.
Qed.

Lemma direction_between_step_witness :
  Coord_sub (mkCoord 6 5) (mkCoord 5 5) = Ret right ∧
  Coord_sub (mkCoord 5 5) (mkCoord 6 5) = Ret (Dir_neg right).
Proof.
  apply (direction_between_step (mkCoord 5 5) (mkCoord 6 5) right);
    reflexivity.
Defined.

(** C6: on coordinates whose neighbours are representable (so that none of
    [b.x ± 1], [b.y ± 1] overflows), [direction_between(a, b)] throws
    "Not a dir" exactly when the Manhattan distance of a and b is not 1,
    in particular when a == b and when a and b differ in both components;
    when the distance is 1 it returns a direction. *)
Theorem direction_between_throws_iff_not_adjacent (a b : Coord) :
  interior b →
  (Coord_sub a b = Throw "Not a dir" ↔ manhattan a b ≠ 1) ∧
  (manhattan a b = 1 → ∃ d, Coord_sub a b = Ret d) ∧
  (a = b → Coord_sub a b = Throw "Not a dir") ∧
  (x a ≠ x b → y a ≠ y b → Coord_sub a b = Throw "Not a dir").
Proof.
  intros Hb. rewrite Coord_sub_interior by assumption.
  unfold manhattan.
  repeat split; try intros ->; intros;
    repeat match goal with
           | H : context [?u =? ?v] |- _ =>
               destruct (Z.eqb_spec u v); try discriminate
           | |- context [?u =? ?v] => destruct (Z.eqb_spec u v)
           end; try lia; try reflexivity; eauto.
Qed.

Lemma direction_between_throws_iff_not_adjacent_witness :
  (Coord_sub (mkCoord 3 3) (mkCoord 4 4) = Throw "Not a dir"
   ↔ manhattan (mkCoord 3 3) (mkCoord 4 4) ≠ 1) ∧
  (manhattan (mkCoord 3 3) (mkCoord 4 4) = 1 →
   ∃ d, Coord_sub (mkCoord 3 3) (mkCoord 4 4) = Ret d) ∧
  (mkCoord 3 3 = mkCoord 4 4 →
   Coord_sub (mkCoord 3 3) (mkCoord 4 4) = Throw "Not a dir") ∧
  (x (mkCoord 3 3) ≠ x (mkCoord 4 4) → y (mkCoord 3 3) ≠ y (mkCoord 4 4) →
   Coord_sub (mkCoord 3 3) (mkCoord 4 4) = Throw "Not a dir").
Proof.
  apply (direction_between_throws_iff_not_adjacent (mkCoord 3 3) (mkCoord 4 4)).
  unfold interior; simpl; pose proof int_bounds; lia.
Defined.

(** ** Whole-grid enumeration *)

Section Enumeration.
Import CoordRange.

Lemma elem_of_nested_loops W H c :
  c ∈ nested_loops W H ↔ in_bounds W H c.
Proof.
  unfold nested_loops, row, in_bounds. rewrite list_elem_of_bind. split.
  - intros (yy & Hc & Hy). apply list_elem_of_fmap in Hc as (xx & -> & Hx).
    apply elem_of_seqZ in Hx, Hy. simpl. lia.
  - intros [Hx Hy]. exists (y c). split.
    + apply list_elem_of_fmap. exists (x c). split; [now destruct c|].
      apply elem_of_seqZ. lia.
    + apply elem_of_seqZ. lia.
Qed.

Lemma NoDup_nested_loops W H : NoDup (nested_loops W H).
Proof.
  unfold nested_loops. apply NoDup_bind.
  - unfold row. intros y1 y2 c _ _ H1 H2.
    apply list_elem_of_fmap in H1 as (x1 & -> & _).
    apply list_elem_of_fmap in H2 as (x2 & [= _ ?] & _). assumption.
  - intros yy _. unfold row. apply NoDup_fmap_2; [|apply NoDup_seqZ].
    intros x1 x2 [= ?]. assumption.
  - apply NoDup_seqZ.
Qed.

Lemma length_rows W (l : list Z) :
  length (l ≫= row W) = (length l * Z.to_nat W)%nat.
Proof.
  induction l as [|yy l IH]; [reflexivity|].
  rewrite bind_cons, length_app, IH. unfold row.
  rewrite length_fmap, length_seqZ. reflexivity.
Qed.

Lemma length_nested_loops W H :
  0 ≤ W → 0 ≤ H → Z.of_nat (length (nested_loops W H)) = W * H.
Proof.
  intros HW HH. unfold nested_loops.
  rewrite length_rows, length_seqZ. lia.
Qed.

(** Inside the grid the loop condition holds; it fails at [end()]. *)
Lemma ne_end_inside cx cy :
  cy < h → ne (mkIt (mkCoord cx cy)) end_ = true.
Proof.
  intros Hy. unfold ne, Coord_ne, Coord_eq, end_. cbn [coord x y].
  destruct (Z.eqb_spec cy h); [lia|]. now rewrite andb_false_r.
Qed.

(** The rest of a row: from column [cx], the [S k] cells up to the last
    column, then the loop goes on at the start of the next row. *)
Lemma traverse_row k : ∀ cx cy fuel,
  0 ≤ cx → cx + Z.of_nat (S k) = w → 0 ≤ cy < h →
  traverse (S k + fuel) (mkIt (mkCoord cx cy)) =
    (λ l, ((λ xx, mkCoord xx cy) <$> seqZ cx (Z.of_nat (S k))) ++ l)
      <$> traverse fuel (mkIt (mkCoord 0 (cy + 1))).
Proof.
  pose proof w_h_bounds as [Hw Hh].
  induction k as [|k IH]; intros cx cy fuel Hcx Hk Hcy.
  - cbn [traverse Nat.add]. rewrite ne_end_inside by lia.
    unfold incr. cbn [coord x y]. int_ok.
    destruct (Z.eqb_spec (cx + 1) w); [|lia]. int_ok.
    rewrite seqZ_cons, seqZ_nil by lia. reflexivity.
  - change (S (S k) + fuel)%nat with (S (S k + fuel)).
    cbn [traverse]. rewrite ne_end_inside by lia.
    unfold incr. cbn [coord x y]. int_ok.
    destruct (Z.eqb_spec (cx + 1) w); [lia|].
    rewrite IH by lia.
    rewrite (seqZ_cons cx) by lia.
    replace (Z.pred (Z.of_nat (S (S k)))) with (Z.of_nat (S k)) by lia.
    rewrite <- option_fmap_compose. reflexivity.
Qed.

(** The rows from [cy] on, [m] of them, and then the loop ends. *)
Lemma traverse_rows m : ∀ cy fuel,
  0 ≤ cy → cy + Z.of_nat m = h →
  (m * Z.to_nat w < fuel)%nat →
  traverse fuel (mkIt (mkCoord 0 cy)) =
    Some (seqZ cy (Z.of_nat m) ≫= row w).
Proof.
  pose proof w_h_bounds as [Hw Hh].
  induction m as [|m IH]; intros cy fuel Hcy Hm Hfuel.
  - destruct fuel as [|fuel]; [lia|]. cbn [traverse].
    replace cy with h by lia. reflexivity.
  - destruct (Z.to_nat w) as [|k] eqn:Ek; [lia|].
    replace fuel with (S k + (fuel - S k))%nat by lia.
    rewrite traverse_row by lia.
    rewrite IH by lia. cbn [fmap option_fmap option_map].
    rewrite (seqZ_cons cy) by lia. rewrite bind_cons. unfold row at 2.
    replace (Z.of_nat (S k)) with w by lia.
    replace (Z.pred (Z.of_nat (S m))) with (Z.of_nat m) by lia.
    reflexivity.
Qed.

End Enumeration.

(** C8: run with enough fuel, the loop over [coords] from [begin()] to
    [end()] finishes and visits exactly the coordinates of the nested loops
    [for y in 0..h-1: for x in 0..w-1], in that order; these are [w*h]
    coordinates, pairwise distinct, each of them valid, and a second run
    yields the same sequence. *)
Theorem coords_enumeration (fuel fuel' : nat) :
  (Z.to_nat (w * h) < fuel)%nat →
  (Z.to_nat (w * h) < fuel')%nat →
  CoordRange.traverse fuel CoordRange.begin
    = Some (CoordRange.nested_loops w h) ∧
  Z.of_nat (length (CoordRange.nested_loops w h)) = w * h ∧
  NoDup (CoordRange.nested_loops w h) ∧
  Forall (λ c, valid c = true ∧ in_bounds w h c)
    (CoordRange.nested_loops w h) ∧
  (∀ c, in_bounds w h c → c ∈ CoordRange.nested_loops w h) ∧
  CoordRange.traverse fuel' CoordRange.begin
    = CoordRange.traverse fuel CoordRange.begin.
Proof.
  intros Hfuel Hfuel'.
  pose proof w_h_bounds as [Hw Hh].
  assert (Hrun : ∀ f, (Z.to_nat (w * h) < f)%nat →
            CoordRange.traverse f CoordRange.begin
              = Some (CoordRange.nested_loops w h)).
  { intros f Hf. unfold CoordRange.begin, CoordRange.nested_loops.
    rewrite (traverse_rows (Z.to_nat h)) by lia.
    now rewrite Z2Nat.id by lia. }
  split_and!.
  - now apply Hrun.
  - apply length_nested_loops; lia.
  - apply NoDup_nested_loops.
  - apply Forall_forall. intros c Hc.
    apply elem_of_nested_loops in Hc. now rewrite valid_in_bounds.
  - intros c Hc. now apply elem_of_nested_loops.
  - now rewrite !Hrun.
Qed.

Lemma coords_enumeration_witness :
  CoordRange.traverse 901 CoordRange.begin
    = Some (CoordRange.nested_loops w h) ∧
  Z.of_nat (length (CoordRange.nested_loops w h)) = w * h ∧
  NoDup (CoordRange.nested_loops w h) ∧
  Forall (λ c, valid c = true ∧ in_bounds w h c)
    (CoordRange.nested_loops w h) ∧
  (∀ c, in_bounds w h c → c ∈ CoordRange.nested_loops w h) ∧
  CoordRange.traverse 1000 CoordRange.begin
    = CoordRange.traverse 901 CoordRange.begin.
Proof.
  apply (coords_enumeration 901 1000); vm_compute; lia.
Defined.

(** ** The store *)

Section StoreFacts.
Context {T : Type}.
Implicit Types (hp : heap T) (a : list (option T)) (l : loc).

Lemma store_Ret hp l a i c :
  hp !! l = Some a → 0 ≤ i < Z.of_nat (length a) →
  store hp (Ptr l) i c = Ret (<[l := <[Z.to_nat i := c]> a]> hp).
Proof.
  intros Hl Hi. unfold store. rewrite Hl.
  destruct (Z.leb_spec 0 i); [|lia].
  destruct (Z.ltb_spec i (Z.of_nat (length a))); [|lia]. reflexivity.
Qed.

Lemma load_cell_Ret hp l a i c :
  hp !! l = Some a → 0 ≤ i → a !! Z.to_nat i = Some c →
  load_cell hp (Ptr l) i = Ret c.
Proof.
  intros Hl Hi Hc. unfold load_cell. rewrite Hl.
  destruct (Z.leb_spec 0 i); [|lia]. now rewrite Hc.
Qed.

Lemma load_Ret hp l a i v :
  hp !! l = Some a → 0 ≤ i → a !! Z.to_nat i = Some (Some v) →
  load hp (Ptr l) i = Ret v.
Proof.
  intros Hl Hi Hc. unfold load.
  now rewrite (load_cell_Ret hp l a i (Some v)).
Qed.

(** A read depends on the addressed cell only. *)
Lemma load_ext hp hp' l a a' i :
  hp !! l = Some a → hp' !! l = Some a' →
  a !! Z.to_nat i = a' !! Z.to_nat i →
  load hp (Ptr l) i = load hp' (Ptr l) i.
Proof.
  intros Hl Hl' Hc. unfold load, load_cell. now rewrite Hl, Hl', Hc.
Qed.

Lemma new_array_Ret (T_new : option T) hp n :
  0 ≤ n →
  new_array T_new hp n =
    Ret (<[fresh (dom hp) := replicate (Z.to_nat n) T_new]> hp,
         Ptr (fresh (dom hp))).
Proof.
  intros Hn. unfold new_array. now destruct (Z.ltb_spec n 0); [lia|].
Qed.

Lemma new_array_Throw (T_new : option T) hp n :
  n < 0 → new_array T_new hp n = Throw "bad_array_new_length".
Proof.
  intros Hn. unfold new_array. now destruct (Z.ltb_spec n 0); [|lia].
Qed.

(** The array returned by [new] is distinct from every live one. *)
Lemma fresh_block hp : hp !! fresh (dom hp) = None.
Proof. apply not_elem_of_dom, is_fresh. Qed.

(** [fill_loop] from offset [k] overwrites [n] cells and no other. *)
Lemma fill_loop_Ret n : ∀ hp l a (k : nat) v,
  hp !! l = Some a → (k + n ≤ length a)%nat →
  fill_loop hp (Ptr l) (Z.of_nat k) n v =
    Ret (<[l := take k a ++ replicate n (Some v) ++ drop (k + n) a]> hp).
Proof.
  induction n as [|n IH]; intros hp l a k v Hl Hk.
  - cbn [fill_loop replicate app]. rewrite Nat.add_0_r, take_drop.
    now rewrite insert_id.
  - cbn [fill_loop]. rewrite (store_Ret hp l a) by (assumption || lia).
    cbn [mbind outcome_bind]. rewrite Nat2Z.id.
    replace (Z.of_nat k + 1) with (Z.of_nat (S k)) by lia.
    rewrite (IH _ l (<[k := Some v]> a));
      [| apply lookup_insert_eq | rewrite length_insert; lia].
    rewrite insert_insert_eq. do 2 f_equal.
    rewrite (take_S_r _ k (Some v))
      by (apply list_lookup_insert_eq; lia).
    rewrite take_insert_ge by lia. rewrite drop_insert_lt by lia.
    rewrite <- (assoc_L (++)). cbn [replicate app].
    now replace (S k + n)%nat with (k + S n)%nat by lia.
Qed.

End StoreFacts.

(** ** Grid *)

Section GridFacts.
Context {T : Type}.
Variable T_new : option T.
Implicit Types (hp : heap T) (g : Grid.t) (c : Coord).

Lemma Grid_ctor_Ret hp init W H :
  0 ≤ W * H ≤ int_max →
  Grid.ctor T_new hp init W H =
    Ret (<[fresh (dom hp) := replicate (Z.to_nat (W * H)) (Some init)]> hp,
         Grid.mk (Ptr (fresh (dom hp))) (Some W) (Some H)).
Proof.
  intros HWH. unfold Grid.ctor. int_ok.
  rewrite new_array_Ret by lia. cbn [mbind outcome_bind].
  unfold Grid.begin, Grid.end_, Grid.size. cbn [Grid.w Grid.h Grid.data rd].
  cbn [mbind outcome_bind]. int_ok.
  unfold std_fill. cbn [fst snd]. rewrite decide_True by reflexivity.
  rewrite (fill_loop_Ret _ _ _ (replicate (Z.to_nat (W * H)) T_new) 0);
    [| apply lookup_insert_eq | rewrite length_replicate; lia].
  cbn [mbind outcome_bind]. rewrite insert_insert_eq.
  rewrite Z.sub_0_r. cbn [take app Nat.add].
  rewrite drop_ge by (rewrite length_replicate; lia).
  now rewrite app_nil_r.
Qed.

Lemma Grid_ctor_Throw hp init W H :
  int_min ≤ W * H < 0 →
  Grid.ctor T_new hp init W H = Throw "bad_array_new_length".
Proof.
  intros HWH. unfold Grid.ctor. int_ok.
  now rewrite new_array_Throw by lia.
Qed.

(** The row-major index of a coordinate of the grid. *)
Lemma index_in_range W H c :
  in_bounds W H c → 0 ≤ x c + W * y c < W * H.
Proof. unfold in_bounds. intros [? ?]. nia. Qed.

Lemma index_inj W H c c' :
  in_bounds W H c → in_bounds W H c' →
  x c + W * y c = x c' + W * y c' → c = c'.
Proof.
  unfold in_bounds. intros [? ?] [? ?] Heq.
  assert (y c = y c') by nia. assert (x c = x c') by nia.
  destruct c, c'; simpl in *; congruence.
Qed.

Lemma Grid_subscript_Ret hp g W H c :
  Grid_wf hp g W H → in_bounds W H c →
  Grid.subscript g c = Ret (Grid.data g, x c + W * y c).
Proof.
  intros (Hw & Hh & Hmax & _) Hc. pose proof (index_in_range W H c Hc).
  unfold in_bounds in Hc.
  unfold Grid.subscript. rewrite Hw. cbn [rd mbind outcome_bind].
  int_ok. reflexivity.
Qed.

End GridFacts.

Section GridAccess.
Context {T : Type}.
Implicit Types (hp : heap T) (g : Grid.t) (c : Coord).

Lemma Grid_wf_ctor (T_new : option T) hp init W H :
  0 ≤ W * H ≤ int_max →
  Grid_wf (<[fresh (dom hp) := replicate (Z.to_nat (W * H)) (Some init)]> hp)
          (Grid.mk (Ptr (fresh (dom hp))) (Some W) (Some H)) W H.
Proof.
  intros HWH. repeat split; [lia|].
  eexists _, _. split; [reflexivity|]. split; [apply lookup_insert_eq|].
  rewrite length_replicate. lia.
Qed.

Lemma Grid_set_Ret hp g W H c v :
  Grid_wf hp g W H → in_bounds W H c →
  ∃ l a, Grid.data g = Ptr l ∧ hp !! l = Some a ∧
    Grid.set hp g c v =
      Ret (<[l := <[Z.to_nat (x c + W * y c) := Some v]> a]> hp).
Proof.
  intros Hwf Hc. pose proof (index_in_range W H c Hc).
  unfold Grid.set. rewrite (Grid_subscript_Ret hp g W H) by assumption.
  destruct Hwf as (_ & _ & _ & l & a & Hd & Hl & Hlen).
  exists l, a. repeat split; try assumption.
  cbn [mbind outcome_bind fst snd]. rewrite Hd.
  apply store_Ret; [assumption | lia].
Qed.

Lemma Grid_get_eq hp g W H c :
  Grid_wf hp g W H → in_bounds W H c →
  ∃ l a, Grid.data g = Ptr l ∧ hp !! l = Some a ∧
    Grid.get hp g c = load hp (Ptr l) (x c + W * y c).
Proof.
  intros Hwf Hc.
  unfold Grid.get. rewrite (Grid_subscript_Ret hp g W H) by assumption.
  destruct Hwf as (_ & _ & _ & l & a & Hd & Hl & Hlen).
  exists l, a. repeat split; try assumption.
  cbn [mbind outcome_bind fst snd]. now rewrite Hd.
Qed.

(** Assignment through [operator []] keeps the invariant, is read back at
    the same coordinate and leaves every other cell of the grid alone. *)
Lemma Grid_set_get hp g W H c v :
  Grid_wf hp g W H → in_bounds W H c →
  ∃ hp', Grid.set hp g c v = Ret hp' ∧ Grid_wf hp' g W H ∧
    Grid.get hp' g c = Ret v ∧
    ∀ c', in_bounds W H c' → c' ≠ c → Grid.get hp' g c' = Grid.get hp g c'.
Proof.
  intros Hwf Hc. pose proof (index_in_range W H c Hc) as Hi.
  destruct (Grid_set_Ret hp g W H c v Hwf Hc) as (l & a & Hd & Hl & Hset).
  assert (Hlen : Z.of_nat (length a) = W * H).
  { destruct Hwf as (_ & _ & _ & l' & a' & Hd' & Hl' & Hlen').
    rewrite Hd in Hd'. injection Hd' as <-. rewrite Hl in Hl'.
    now injection Hl' as <-. }
  eexists. split; [exact Hset|].
  assert (Hwf' : Grid_wf (<[l := <[Z.to_nat (x c + W * y c) := Some v]> a]> hp)
                   g W H).
  { destruct Hwf as (Hw & Hh & Hmax & _). repeat split; try assumption.
    eexists _, _. split; [exact Hd|]. split; [apply lookup_insert_eq|].
    now rewrite length_insert. }
  split; [exact Hwf'|]. split.
  - destruct (Grid_get_eq _ g W H c Hwf' Hc) as (l' & a' & Hd' & _ & ->).
    rewrite Hd in Hd'. injection Hd' as <-.
    eapply load_Ret; [apply lookup_insert_eq | lia |].
    apply list_lookup_insert_eq. lia.
  - intros c' Hc' Hne. pose proof (index_in_range W H c' Hc') as Hi'.
    destruct (Grid_get_eq _ g W H c' Hwf' Hc') as (l' & a' & Hd' & _ & ->).
    rewrite Hd in Hd'. injection Hd' as <-.
    destruct (Grid_get_eq _ g W H c' Hwf Hc') as (l' & a'' & Hd' & _ & ->).
    rewrite Hd in Hd'. injection Hd' as <-.
    eapply load_ext; [apply lookup_insert_eq | exact Hl |].
    apply list_lookup_insert_ne. intros Heq.
    apply Hne. apply (index_inj W H); try assumption. lia.
Qed.

End GridAccess.

(** C9: a Grid constructed with dimensions (W,H), of representable
    non-negative product, and initial value v has [size() == W*H] and reads v
    at every coordinate of [0,W)x[0,H); and in every later state of that
    grid, assigning x at a coordinate c of the grid makes a read at c return
    x and leaves the read at every other coordinate c' of the grid as it
    was. *)
Theorem Grid_init_get_set {T : Type} (T_new : option T) (hp0 : heap T)
    (v : T) (W H : Z) :
  0 ≤ W * H ≤ int_max →
  ∃ (hp1 : heap T) g,
    Grid.ctor T_new hp0 v W H = Ret (hp1, g) ∧
    Grid.size g = Ret (W * H) ∧
    Grid_wf hp1 g W H ∧
    (∀ c, in_bounds W H c → Grid.get hp1 g c = Ret v) ∧
    (∀ hp : heap T, Grid_wf hp g W H →
       ∀ c xv, in_bounds W H c →
         ∃ hp', Grid.set hp g c xv = Ret hp' ∧
           Grid_wf hp' g W H ∧
           Grid.get hp' g c = Ret xv ∧
           ∀ c', in_bounds W H c' → c' ≠ c →
             Grid.get hp' g c' = Grid.get hp g c').
Proof.
  intros HWH.
  eexists _, _. split; [apply Grid_ctor_Ret; exact HWH|].
  pose proof (Grid_wf_ctor T_new hp0 v W H HWH) as Hwf.
  split_and!.
  - unfold Grid.size. cbn [Grid.w Grid.h rd]. now int_ok.
  - exact Hwf.
  - intros c Hc. pose proof (index_in_range W H c Hc) as Hi.
    destruct (Grid_get_eq _ _ W H c Hwf Hc) as (l & a & [= <-] & _ & ->).
    eapply load_Ret; [apply lookup_insert_eq | lia |].
    apply lookup_replicate_2. lia.
  - intros hp Hwf' c xv Hc. now apply Grid_set_get.
Qed.

Lemma Grid_init_get_set_witness :
  ∃ (hp1 : heap Z) g,
    Grid.ctor None (∅ : heap Z) 7 3 2 = Ret (hp1, g) ∧
    Grid.size g = Ret (3 * 2) ∧
    Grid_wf hp1 g 3 2 ∧
    (∀ c, in_bounds 3 2 c → Grid.get hp1 g c = Ret 7) ∧
    (∀ hp : heap Z, Grid_wf hp g 3 2 →
       ∀ c xv, in_bounds 3 2 c →
         ∃ hp', Grid.set hp g c xv = Ret hp' ∧
           Grid_wf hp' g 3 2 ∧
           Grid.get hp' g c = Ret xv ∧
           ∀ c', in_bounds 3 2 c' → c' ≠ c →
             Grid.get hp' g c' = Grid.get hp g c').
Proof.
  apply (Grid_init_get_set None ∅ 7 3 2); pose proof int_bounds; lia.
Defined.

(** C3, as stated in the specification, fails on the code: a Grid of width 0
    and height 5 is constructed, with [size() == 0]; so is a Grid of width -2
    and height -3, with 6 cells. *)
Lemma Grid_ctor_nonpositive_counterexample :
  (∃ (hp : heap Z) g, Grid.ctor None (∅ : heap Z) 7 0 5 = Ret (hp, g) ∧
           Grid.size g = Ret 0) ∧
  (∃ (hp : heap Z) g, Grid.ctor None (∅ : heap Z) 7 (-2) (-3) = Ret (hp, g) ∧
           Grid.size g = Ret 6).
Proof.
  split; eexists _, _;
    (split; [apply Grid_ctor_Ret; pose proof int_bounds; lia | reflexivity]).
Qed.

(** C3, amended: the constructor checks neither dimension.  With a
    representable product [w*h], construction fails exactly when the product
    is negative, by the exception of the array allocation; when the product is
    not negative, which includes a zero dimension and two negative dimensions,
    a Grid of [w*h] cells, all equal to the initial value, is constructed. *)
Theorem Grid_ctor_fails_iff_negative_product {T : Type} (T_new : option T)
    (hp : heap T) (init : T) (W H : Z) :
  in_int (W * H) →
  (W * H < 0 → Grid.ctor T_new hp init W H = Throw "bad_array_new_length") ∧
  (0 ≤ W * H →
     ∃ (hp' : heap T) g l, Grid.ctor T_new hp init W H = Ret (hp', g) ∧
       Grid.size g = Ret (W * H) ∧
       g = Grid.mk (Ptr l) (Some W) (Some H) ∧
       hp' !! l = Some (replicate (Z.to_nat (W * H)) (Some init))).
Proof.
  intros [Hmin Hmax]. split; intros HWH.
  - apply Grid_ctor_Throw. lia.
  - eexists _, _, _. split; [apply Grid_ctor_Ret; lia|]. split_and!.
    + unfold Grid.size. cbn [Grid.w Grid.h rd].
      apply int_mul_Ret. split; assumption.
    + reflexivity.
    + apply lookup_insert_eq.
Qed.

Lemma Grid_ctor_fails_iff_negative_product_witness :
  ((-1) * 4 < 0 →
     Grid.ctor None (∅ : heap Z) 7 (-1) 4 = Throw "bad_array_new_length") ∧
  (0 ≤ (-1) * 4 →
     ∃ (hp' : heap Z) g l, Grid.ctor None (∅ : heap Z) 7 (-1) 4 = Ret (hp', g) ∧
       Grid.size g = Ret ((-1) * 4) ∧
       g = Grid.mk (Ptr l) (Some (-1)) (Some 4) ∧
       hp' !! l = Some (replicate (Z.to_nat ((-1) * 4)) (Some 7))).
Proof.
  apply (Grid_ctor_fails_iff_negative_product None ∅ 7 (-1) 4).
  unfold in_int. pose proof int_bounds. lia.
Defined.

(** C2: what the move constructor does, for every source Grid.  The buffer
    pointer goes to the new object and the source is left with a null
    pointer, but the new object's [w] and [h] are given no value: its
    [size()] and every read through [operator []] are undefined.  The source
    keeps its dimensions, so its [size()] is what it was. *)
Theorem Grid_move_ctor_drops_dimensions {T : Type} (hp : heap T)
    (that : Grid.t) :
  let (g, src) := Grid.move_ctor that in
  Grid.data g = Grid.data that ∧
  Grid.w g = None ∧ Grid.h g = None ∧
  Grid.size g = Undef ∧
  (∀ c, Grid.get hp g c = Undef) ∧
  Grid.data src = nullptr ∧
  Grid.size src = Grid.size that.
Proof. cbn. repeat split. Qed.

(** C2 at a concrete grid: after [Grid<int> g(0, 2, 3)] and the move
    construction of a new Grid from it, [size()] of the new Grid is undefined
    instead of 6, and the source still reports 6 cells while holding none. *)
Lemma Grid_move_ctor_example :
  ∃ (hp : heap Z) g, Grid.ctor None (∅ : heap Z) 0 2 3 = Ret (hp, g) ∧
    Grid.size g = Ret 6 ∧
    Grid.size (Grid.move_ctor g).1 = Undef ∧
    Grid.get hp (Grid.move_ctor g).1 (mkCoord 0 0) = Undef ∧
    Grid.data (Grid.move_ctor g).2 = nullptr ∧
    Grid.size (Grid.move_ctor g).2 = Ret 6.
Proof.
  eexists _, _.
  split; [apply Grid_ctor_Ret; pose proof int_bounds; lia|].
  repeat split.
Qed.

(** ** Ring buffer *)

Lemma mod_wrap s c :
  0 ≤ s < 2 * c → s `mod` c = if s <? c then s else s - c.
Proof.
  intros Hs. destruct (Z.ltb_spec s c).
  - apply Z.mod_small. lia.
  - symmetry. apply (Zmod_unique s c 1); lia.
Qed.

Section RingFacts.
Context {T : Type}.
Implicit Types (hp : heap T) (r : RingBuffer.t) (v : T).
Import RingBuffer.

Lemma RingBuffer_ctor_Ret (T_new : option T) hp K :
  0 ≤ K →
  ctor T_new hp K =
    Ret (<[fresh (dom hp) := replicate (Z.to_nat K) T_new]> hp,
         mk (Ptr (fresh (dom hp))) K 0 0).
Proof.
  intros HK. unfold ctor. now rewrite new_array_Ret by assumption.
Qed.

Lemma RingBuffer_wf_ctor (T_new : option T) hp K :
  1 ≤ K ≤ int_max →
  RingBuffer_wf (<[fresh (dom hp) := replicate (Z.to_nat K) T_new]> hp)
                (mk (Ptr (fresh (dom hp))) K 0 0).
Proof.
  intros HK. unfold RingBuffer_wf. cbn [capacity_ begin_ end_ data].
  split_and!; try lia.
  eexists _, _. split; [reflexivity|]. split; [apply lookup_insert_eq|].
  rewrite length_replicate. lia.
Qed.

Lemma next_range K i : 0 ≤ i < K → 0 ≤ next K i < K.
Proof.
  intros Hi. unfold next. rewrite Z.geb_leb.
  destruct (Z.leb_spec K (i + 1)); lia.
Qed.

Lemma prev_range K i : 0 ≤ i < K → 0 ≤ prev K i < K.
Proof.
  intros Hi. unfold prev. destruct (Z.ltb_spec (i - 1) 0); lia.
Qed.

Lemma next_prev K i : 0 ≤ i < K → next K (prev K i) = i.
Proof.
  intros Hi. unfold next, prev. destruct (Z.ltb_spec (i - 1) 0);
    rewrite Z.geb_leb;
    match goal with |- context [?u <=? ?v] => destruct (Z.leb_spec u v) end;
    lia.
Qed.

Lemma push_back_Ret hp r v l a :
  RingBuffer_wf hp r → data r = Ptr l → hp !! l = Some a →
  push_back hp r v =
    Ret (<[l := <[Z.to_nat (end_ r) := Some v]> a]> hp,
         set_end r (next (capacity_ r) (end_ r))).
Proof.
  intros (HK & Hb & He & l' & a' & Hd' & Hl' & Hlen) Hd Hl.
  rewrite Hd in Hd'. injection Hd' as <-.
  rewrite Hl in Hl'. injection Hl' as <-.
  unfold push_back. rewrite Hd, (store_Ret hp l a) by (assumption || lia).
  int_ok. reflexivity.
Qed.

Lemma push_front_Ret hp r v l a :
  RingBuffer_wf hp r → data r = Ptr l → hp !! l = Some a →
  push_front hp r v =
    Ret (<[l := <[Z.to_nat (prev (capacity_ r) (begin_ r)) := Some v]> a]> hp,
         set_begin r (prev (capacity_ r) (begin_ r))).
Proof.
  intros Hwf Hd Hl.
  pose proof Hwf as (HK & Hb & He & l' & a' & Hd' & Hl' & Hlen).
  rewrite Hd in Hd'. injection Hd' as <-.
  rewrite Hl in Hl'. injection Hl' as <-.
  pose proof (prev_range _ _ Hb) as Hp. unfold prev in *.
  unfold push_front, capacity. int_ok.
  destruct (Z.ltb_spec (begin_ r - 1) 0); int_ok;
    rewrite Hd, (store_Ret hp l a) by (assumption || lia); reflexivity.
Qed.

Lemma pop_front_Ret hp r :
  RingBuffer_wf hp r →
  pop_front r = Ret (set_begin r (next (capacity_ r) (begin_ r))).
Proof.
  intros (HK & Hb & He & _). unfold pop_front. int_ok. reflexivity.
Qed.

Lemma pop_back_Ret hp r :
  RingBuffer_wf hp r →
  pop_back r = Ret (set_end r (prev (capacity_ r) (end_ r))).
Proof.
  intros (HK & Hb & He & _). unfold pop_back, prev, capacity. int_ok.
  destruct (Z.ltb_spec (end_ r - 1) 0); int_ok; reflexivity.
Qed.

Lemma size_Ret hp r :
  RingBuffer_wf hp r →
  size r = Ret (if end_ r <? begin_ r
                then end_ r - begin_ r + capacity_ r
                else end_ r - begin_ r).
Proof.
  intros (HK & Hb & He & _). unfold size, capacity, b2z.
  destruct (Z.ltb_spec (end_ r) (begin_ r)); int_ok; f_equal; lia.
Qed.

(** [size()] of a well-formed buffer is below its capacity. *)
Lemma size_below_capacity hp r :
  RingBuffer_wf hp r → ∃ n, size r = Ret n ∧ 0 ≤ n < capacity r.
Proof.
  intros Hwf. rewrite (size_Ret hp r Hwf).
  destruct Hwf as (HK & Hb & He & _). unfold capacity.
  eexists. split; [reflexivity|].
  destruct (Z.ltb_spec (end_ r) (begin_ r)); lia.
Qed.

(** Every mutator is defined on a well-formed buffer and keeps it
    well-formed, with the same array and capacity. *)
Lemma step_wf hp r (o : op T) :
  RingBuffer_wf hp r →
  ∃ hp' r', step hp r o = Ret (hp', r') ∧ RingBuffer_wf hp' r' ∧
    data r' = data r ∧ capacity_ r' = capacity_ r.
Proof.
  intros Hwf.
  pose proof Hwf as (HK & Hb & He & l & a & Hd & Hl & Hlen).
  pose proof (next_range _ _ Hb). pose proof (next_range _ _ He).
  pose proof (prev_range _ _ Hb). pose proof (prev_range _ _ He).
  destruct o as [v|v| |]; cbn [step].
  - rewrite (push_front_Ret hp r v l a) by assumption.
    eexists _, _. split; [reflexivity|]. split; [|split; reflexivity].
    unfold RingBuffer_wf. cbn [set_begin capacity_ begin_ end_ data].
    split_and!; try lia. exists l. eexists. split; [assumption|].
    split; [apply lookup_insert_eq|]. now rewrite length_insert.
  - rewrite (push_back_Ret hp r v l a) by assumption.
    eexists _, _. split; [reflexivity|]. split; [|split; reflexivity].
    unfold RingBuffer_wf. cbn [set_end capacity_ begin_ end_ data].
    split_and!; try lia. exists l. eexists. split; [assumption|].
    split; [apply lookup_insert_eq|]. now rewrite length_insert.
  - rewrite (pop_front_Ret hp r) by assumption. cbn [mbind outcome_bind].
    eexists _, _. split; [reflexivity|]. split; [|split; reflexivity].
    unfold RingBuffer_wf. cbn [set_begin capacity_ begin_ end_ data].
    split_and!; try lia. now exists l, a.
  - rewrite (pop_back_Ret hp r) by assumption. cbn [mbind outcome_bind].
    eexists _, _. split; [reflexivity|]. split; [|split; reflexivity].
    unfold RingBuffer_wf. cbn [set_end capacity_ begin_ end_ data].
    split_and!; try lia. now exists l, a.
Qed.

Lemma run_wf (ops : list (op T)) : ∀ hp r,
  RingBuffer_wf hp r →
  ∃ hp' r', run hp r ops = Ret (hp', r') ∧ RingBuffer_wf hp' r' ∧
    data r' = data r ∧ capacity_ r' = capacity_ r.
Proof.
  induction ops as [|o ops IH]; intros hp r Hwf.
  - exists hp, r. split; [reflexivity|]. split; [assumption|].
    split; reflexivity.
  - destruct (step_wf hp r o Hwf) as (hp1 & r1 & Hs & Hwf1 & Hd1 & Hc1).
    destruct (IH hp1 r1 Hwf1) as (hp2 & r2 & Hr & Hwf2 & Hd2 & Hc2).
    exists hp2, r2. cbn [run]. rewrite Hs. cbn [mbind outcome_bind fst snd].
    split; [exact Hr|]. split; [exact Hwf2|]. split; congruence.
Qed.

End RingFacts.

Section RingRuns.
Context {T : Type}.
Implicit Types (hp : heap T) (r : RingBuffer.t) (v : T).
Import RingBuffer.

Lemma run_app (ops1 ops2 : list (op T)) : ∀ hp r,
  run hp r (ops1 ++ ops2) = s ← run hp r ops1; run s.1 s.2 ops2.
Proof.
  induction ops1 as [|o ops1 IH]; intros hp r; [reflexivity|].
  cbn [run app]. destruct (step hp r o) as [[hp1 r1]| |]; try reflexivity.
  cbn [mbind outcome_bind fst snd]. apply IH.
Qed.

Lemma at_Ret hp r l a i v :
  RingBuffer_wf hp r → data r = Ptr l → hp !! l = Some a →
  0 ≤ i → begin_ r + i ≤ int_max →
  a !! Z.to_nat ((begin_ r + i) `mod` capacity_ r) = Some (Some v) →
  at_ hp r i = Ret v.
Proof.
  intros (HK & Hb & He & _) Hd Hl Hi Hmax Hv.
  unfold at_. int_ok.
  rewrite int_rem_Ret by (unfold in_int; pose proof int_bounds; lia).
  cbn [mbind outcome_bind]. rewrite Hd.
  eapply load_Ret; [exact Hl | | exact Hv].
  apply Z.mod_pos_bound. lia.
Qed.

(** Writing one more value behind the values already in place. *)
Lemma filled_snoc (a : list (option T)) (done : list T) v :
  (length done < length a)%nat →
  (∀ (i : nat) u, done !! i = Some u → a !! i = Some (Some u)) →
  ∀ (i : nat) u, (done ++ [v]) !! i = Some u →
    <[length done := Some v]> a !! i = Some (Some u).
Proof.
  intros Hlen Ha i u Hi.
  apply lookup_app_Some in Hi as [Hi | [Hge Hi]].
  - rewrite list_lookup_insert_ne; [now apply Ha|].
    apply lookup_lt_Some in Hi. lia.
  - destruct (i - length done)%nat as [|k] eqn:Ek; [|discriminate].
    injection Hi as <-. replace i with (length done) by lia.
    now apply list_lookup_insert_eq.
Qed.

(** [push_back] of [v] on a buffer filled from slot 0 with [done], with a
    free slot left: the array gets [v] behind [done]. *)
Lemma push_back_filled hp r l done v :
  RingBuffer_wf hp r → RingBuffer_filled hp r l done →
  ∃ hp' a', push_back hp r v =
      Ret (hp', set_end r (next (capacity_ r) (Z.of_nat (length done)))) ∧
    hp' !! l = Some a' ∧ Z.of_nat (length a') = capacity_ r ∧
    ∀ (i : nat) u, (done ++ [v]) !! i = Some u → a' !! i = Some (Some u).
Proof.
  intros Hwf (Hd & Hb & He & a & Hl & Hlen & Ha).
  pose proof Hwf as (HK & _ & He' & _).
  rewrite (push_back_Ret hp r v l a) by assumption. rewrite He.
  eexists _, _. split; [reflexivity|]. split; [apply lookup_insert_eq|].
  split; [now rewrite length_insert|].
  rewrite Nat2Z.id. apply filled_snoc; [lia | assumption].
Qed.

(** Pushing the values [vs] at the back of a buffer that is filled from
    slot 0 with [done] and has more than [length vs] free slots. *)
Lemma run_push_back (vs : list T) : ∀ hp r l done,
  RingBuffer_wf hp r → RingBuffer_filled hp r l done →
  Z.of_nat (length done + length vs) < capacity_ r →
  ∃ hp' r', run hp r (PushBack <$> vs) = Ret (hp', r') ∧
    RingBuffer_wf hp' r' ∧ RingBuffer_filled hp' r' l (done ++ vs) ∧
    capacity_ r' = capacity_ r.
Proof.
  induction vs as [|v vs IH]; intros hp r l done Hwf Hfill Hlen.
  - exists hp, r. rewrite app_nil_r. split; [reflexivity|]. now split.
  - cbn [length] in Hlen.
    destruct (push_back_filled hp r l done v Hwf Hfill)
      as (hp1 & a1 & Hpush & Hl1 & Hlen1 & Ha1).
    destruct (step_wf hp r (PushBack v) Hwf)
      as (hp1' & r1 & Hstep & Hwf1 & Hd1 & Hc1).
    cbn [step] in Hstep. rewrite Hpush in Hstep.
    injection Hstep as <- <-.
    assert (Hnext : next (capacity_ r) (Z.of_nat (length done))
                    = Z.of_nat (length (done ++ [v]))).
    { unfold next. rewrite Z.geb_leb, length_app. cbn [length].
      destruct (Z.leb_spec (capacity_ r) (Z.of_nat (length done) + 1)); lia. }
    destruct (IH hp1 _ l (done ++ [v]) Hwf1) as (hp2 & r2 & Hrun & Hwf2 & Hfill2 & Hc2).
    + destruct Hfill as (Hd & Hb & _).
      split; [exact Hd|]. split; [exact Hb|]. split; [exact Hnext|].
      exists a1. now split.
    + rewrite length_app. cbn [length set_end capacity_]. lia.
    + exists hp2, r2. cbn [fmap list_fmap run step]. rewrite Hpush.
      cbn [mbind outcome_bind fst snd].
      rewrite <- (assoc_L (++)) in Hfill2.
      split; [exact Hrun|]. split; [exact Hwf2|]. split; [exact Hfill2|].
      exact Hc2.
Qed.

Lemma filled_ctor (T_new : option T) hp K :
  0 ≤ K →
  RingBuffer_filled
    (<[fresh (dom hp) := replicate (Z.to_nat K) T_new]> hp)
    (mk (Ptr (fresh (dom hp))) K 0 0) (fresh (dom hp)) [].
Proof.
  intros HK. split; [reflexivity|]. split; [reflexivity|].
  split; [reflexivity|]. eexists. split; [apply lookup_insert_eq|].
  split; [rewrite length_replicate; cbn [capacity_]; lia|].
  intros i u Hi. discriminate.
Qed.

End RingRuns.

(** The scenario of C4 on a [RingBuffer<int>], from any store. *)
Lemma RingBuffer_scenario (new_int : option Z) (hp0 : heap Z) :
  ∃ (hp1 hp2 : heap Z) r1 r2,
    RingBuffer.ctor new_int hp0 4 = Ret (hp1, r1) ∧
    RingBuffer.run hp1 r1
      [RingBuffer.PushBack 1; RingBuffer.PushBack 2; RingBuffer.PushFront 0]
      = Ret (hp2, r2) ∧
    RingBuffer.size r2 = Ret 3 ∧
    RingBuffer.at_ hp2 r2 0 = Ret 0 ∧
    RingBuffer.at_ hp2 r2 1 = Ret 1 ∧
    RingBuffer.at_ hp2 r2 2 = Ret 2.
Proof.
  pose proof int_bounds as [_ Hmax].
  assert (HK : 1 ≤ 4 ≤ int_max) by lia.
  pose proof (RingBuffer_wf_ctor new_int hp0 4 HK) as Hwf1.
  destruct (run_push_back [1; 2] _ _ _ [] Hwf1
              (filled_ctor new_int hp0 4 ltac:(lia)))
    as (hpa & ra & Hrun & Hwfa & (Hd & Hb & He & a & Hl & Hlen & Ha) & Hc);
    [cbn; lia|].
  destruct ra as [d K b e].
  cbn [RingBuffer.capacity_ RingBuffer.data RingBuffer.begin_
       RingBuffer.end_ app length] in *.
  revert Hlen. subst d K b e. intros Hlen.
  pose proof (push_front_Ret hpa _ 0 _ a Hwfa eq_refl Hl) as Hpf.
  cbn [RingBuffer.capacity_ RingBuffer.begin_ RingBuffer.set_begin
       RingBuffer.data RingBuffer.end_] in Hpf.
  change (prev 4 0) with 3 in Hpf.
  destruct (step_wf hpa _ (RingBuffer.PushFront 0) Hwfa)
    as (hp2 & r2 & Hstep & Hwf2 & _).
  cbn [RingBuffer.step] in Hstep. rewrite Hpf in Hstep.
  injection Hstep as <- <-.
  eexists _, _, _, _. split; [apply RingBuffer_ctor_Ret; lia|].
  split.
  { change [RingBuffer.PushBack 1; RingBuffer.PushBack 2;
            RingBuffer.PushFront 0]
      with ((RingBuffer.PushBack <$> [1; 2]) ++ [RingBuffer.PushFront 0]).
    rewrite run_app, Hrun. cbn [mbind outcome_bind fst snd RingBuffer.run].
    cbn [RingBuffer.step]. rewrite Hpf. reflexivity. }
  split; [reflexivity|].
  assert (Hlen' : length a = 4%nat) by lia.
  pose proof (Ha 0%nat 1 eq_refl) as Ha0.
  pose proof (Ha 1%nat 2 eq_refl) as Ha1.
  cbn [fst snd RingBuffer.set_begin].
  split_and!;
    (eapply at_Ret;
     [exact Hwf2 | reflexivity | apply lookup_insert_eq | lia
     | cbn [RingBuffer.begin_ RingBuffer.set_begin]; lia
     | cbn [RingBuffer.begin_ RingBuffer.set_begin RingBuffer.capacity_] ]).
  - apply list_lookup_insert_eq. clear - Hlen'. lia.
  - change (Z.to_nat ((3 + 1) `mod` 4)) with 0%nat.
    rewrite list_lookup_insert_ne by (clear; lia). exact Ha0.
  - change (Z.to_nat ((3 + 2) `mod` 4)) with 1%nat.
    rewrite list_lookup_insert_ne by (clear; lia). exact Ha1.
Qed.

(** C4: for every capacity K >= 1 and values v0..v_{K-2}, constructing a
    RingBuffer of capacity K and pushing the values at the back in order
    succeeds and gives [size() == K-1], [front() == v0], [back() == v_{K-2}]
    and [at(i) == v_i] for every i; and with capacity 4, push_back(1),
    push_back(2), push_front(0) gives size 3 and the elements 0, 1, 2. *)
Theorem RingBuffer_push_back_sequence {T : Type} (T_new : option T)
    (hp0 : heap T) (K : Z) (vs : list T) :
  1 ≤ K ≤ int_max →
  Z.of_nat (length vs) = K - 1 →
  (∃ (hp1 hp2 : heap T) r1 r2,
     RingBuffer.ctor T_new hp0 K = Ret (hp1, r1) ∧
     RingBuffer.run hp1 r1 (RingBuffer.PushBack <$> vs) = Ret (hp2, r2) ∧
     RingBuffer.size r2 = Ret (K - 1) ∧
     (∀ v, head vs = Some v → RingBuffer.front hp2 r2 = Ret v) ∧
     (∀ v, last vs = Some v → RingBuffer.back hp2 r2 = Ret v) ∧
     (∀ (i : nat) v, vs !! i = Some v →
        RingBuffer.at_ hp2 r2 (Z.of_nat i) = Ret v)) ∧
  (∀ (new_int : option Z) (hq0 : heap Z),
     ∃ (hq1 hq2 : heap Z) q1 q2,
       RingBuffer.ctor new_int hq0 4 = Ret (hq1, q1) ∧
       RingBuffer.run hq1 q1
         [RingBuffer.PushBack 1; RingBuffer.PushBack 2;
          RingBuffer.PushFront 0] = Ret (hq2, q2) ∧
       RingBuffer.size q2 = Ret 3 ∧
       RingBuffer.at_ hq2 q2 0 = Ret 0 ∧
       RingBuffer.at_ hq2 q2 1 = Ret 1 ∧
       RingBuffer.at_ hq2 q2 2 = Ret 2).
Proof.
  intros HK Hvs. split; [|apply RingBuffer_scenario].
  pose proof (RingBuffer_wf_ctor T_new hp0 K HK) as Hwf1.
  destruct (run_push_back vs _ _ _ [] Hwf1
              (filled_ctor T_new hp0 K ltac:(lia)))
    as (hp2 & r2 & Hrun & Hwf2 & (Hd & Hb & He & a & Hl & Hlen & Ha) & Hc);
    [cbn [length RingBuffer.capacity_ Nat.add]; lia|].
  destruct r2 as [d K' b e].
  cbn [RingBuffer.capacity_ RingBuffer.data RingBuffer.begin_
       RingBuffer.end_ app] in *.
  revert Hlen. subst d K' b e. intros Hlen.
  eexists _, _, _, _. split; [apply RingBuffer_ctor_Ret; lia|].
  split; [exact Hrun|]. split_and!.
  - rewrite (size_Ret _ _ Hwf2).
    cbn [RingBuffer.begin_ RingBuffer.end_ RingBuffer.capacity_].
    destruct (Z.ltb_spec (Z.of_nat (length vs)) 0); f_equal; lia.
  - intros v Hv. rewrite head_lookup in Hv. unfold RingBuffer.front.
    cbn [RingBuffer.begin_ RingBuffer.data].
    eapply load_Ret; [exact Hl | lia | now apply Ha].
  - intros v Hv. rewrite last_lookup in Hv.
    assert (length vs ≠ 0%nat) by (destruct vs; [discriminate | cbn; lia]).
    unfold RingBuffer.back, RingBuffer.capacity.
    cbn [RingBuffer.end_ RingBuffer.data RingBuffer.capacity_].
    destruct (Z.eqb_spec (Z.of_nat (length vs)) 0); [lia|]. int_ok.
    eapply load_Ret; [exact Hl | lia |]. apply Ha.
    now replace (Z.to_nat (Z.of_nat (length vs) - 1))
      with (Nat.pred (length vs)) by lia.
  - intros i v Hi. pose proof (lookup_lt_Some _ _ _ Hi) as Hlt.
    eapply at_Ret; [exact Hwf2 | reflexivity | exact Hl | lia | |];
      cbn [RingBuffer.begin_ RingBuffer.capacity_].
    + lia.
    + rewrite Z.add_0_l, Z.mod_small by lia. rewrite Nat2Z.id.
      now apply Ha.
Qed.

Lemma RingBuffer_push_back_sequence_witness :
  ∃ (hp1 hp2 : heap Z) r1 r2,
    RingBuffer.ctor None ∅ 3 = Ret (hp1, r1) ∧
    RingBuffer.run hp1 r1 (RingBuffer.PushBack <$> [10; 20]) = Ret (hp2, r2) ∧
    RingBuffer.size r2 = Ret (3 - 1) ∧
    (∀ v, head [10; 20] = Some v → RingBuffer.front hp2 r2 = Ret v) ∧
    (∀ v, last [10; 20] = Some v → RingBuffer.back hp2 r2 = Ret v) ∧
    (∀ (i : nat) v, [10; 20] !! i = Some v →
       RingBuffer.at_ hp2 r2 (Z.of_nat i) = Ret v).
Proof.
  apply (RingBuffer_push_back_sequence None ∅ 3 [10; 20]).
  - pose proof int_bounds. lia.
  - reflexivity.
Defined.

(** C10: for every capacity K >= 1, K calls of push_back on a freshly
    constructed RingBuffer of capacity K succeed and bring the back cursor
    round to the front cursor: the object is again exactly the freshly
    constructed one, [empty()] is true and [size()] is 0, while every slot
    of the array holds the value pushed into it; and after any sequence of
    pushes and pops from construction, [size()] is defined and lies in
    [0, K), so it is never K. *)
Theorem RingBuffer_full_looks_empty {T : Type} (T_new : option T)
    (hp0 : heap T) (K : Z) (vs : list T) :
  1 ≤ K ≤ int_max →
  Z.of_nat (length vs) = K →
  ∃ (hp1 hp2 : heap T) r1 r2,
    RingBuffer.ctor T_new hp0 K = Ret (hp1, r1) ∧
    RingBuffer.run hp1 r1 (RingBuffer.PushBack <$> vs) = Ret (hp2, r2) ∧
    RingBuffer.end_ r2 = RingBuffer.begin_ r2 ∧
    r2 = r1 ∧
    RingBuffer.empty r2 = true ∧
    RingBuffer.size r2 = Ret 0 ∧
    (∀ (i : nat) v, vs !! i = Some v →
       load hp2 (RingBuffer.data r2) (Z.of_nat i) = Ret v) ∧
    (∀ ops : list (RingBuffer.op T),
       ∃ (hp3 : heap T) r3 n,
         RingBuffer.run hp1 r1 ops = Ret (hp3, r3) ∧
         RingBuffer.capacity r3 = K ∧
         RingBuffer.size r3 = Ret n ∧ 0 ≤ n < K).
Proof.
  intros HK Hvs.
  pose proof (RingBuffer_wf_ctor T_new hp0 K HK) as Hwf1.
  destruct vs as [|v vs _] using rev_ind; [cbn in Hvs; lia|].
  rewrite length_app in Hvs. cbn [length] in Hvs.
  destruct (run_push_back vs _ _ _ [] Hwf1
              (filled_ctor T_new hp0 K ltac:(lia)))
    as (hpa & ra & Hrun & Hwfa & Hfill & Hc);
    [cbn [length RingBuffer.capacity_ Nat.add]; lia|].
  destruct (push_back_filled hpa ra _ _ v Hwfa Hfill)
    as (hp2 & a2 & Hpush & Hl2 & Hlen2 & Ha2).
  destruct Hfill as (Hd & Hb & He & _).
  destruct ra as [d K' b e].
  cbn [RingBuffer.capacity_ RingBuffer.data RingBuffer.begin_
       RingBuffer.end_ RingBuffer.set_end app] in *.
  subst d K' b e.
  replace (next K (Z.of_nat (length vs))) with 0 in Hpush.
  2:{ unfold next. rewrite Z.geb_leb.
      destruct (Z.leb_spec K (Z.of_nat (length vs) + 1)); lia. }
  eexists _, _, _, _. split; [apply RingBuffer_ctor_Ret; lia|].
  split.
  { rewrite fmap_app, run_app, Hrun.
    cbn [mbind outcome_bind fst snd fmap list_fmap RingBuffer.run
         RingBuffer.step].
    rewrite Hpush. reflexivity. }
  split_and!; try reflexivity.
  - intros i u Hi. cbn [RingBuffer.data].
    eapply load_Ret; [exact Hl2 | lia |]. rewrite Nat2Z.id. now apply Ha2.
  - intros ops.
    destruct (run_wf ops _ _ Hwf1) as (hp3 & r3 & Hr & Hwf3 & _ & Hc3).
    destruct (size_below_capacity _ _ Hwf3) as (n & Hn & Hrange).
    unfold RingBuffer.capacity in *.
    cbn [RingBuffer.capacity_] in Hc3. rewrite Hc3 in Hrange.
    exists hp3, r3, n. now split_and!.
Qed.

Lemma RingBuffer_full_looks_empty_witness :
  ∃ (hp1 hp2 : heap Z) r1 r2,
    RingBuffer.ctor None ∅ 2 = Ret (hp1, r1) ∧
    RingBuffer.run hp1 r1 (RingBuffer.PushBack <$> [7; 8]) = Ret (hp2, r2) ∧
    RingBuffer.end_ r2 = RingBuffer.begin_ r2 ∧
    r2 = r1 ∧
    RingBuffer.empty r2 = true ∧
    RingBuffer.size r2 = Ret 0 ∧
    (∀ (i : nat) v, [7; 8] !! i = Some v →
       load hp2 (RingBuffer.data r2) (Z.of_nat i) = Ret v) ∧
    (∀ ops : list (RingBuffer.op Z),
       ∃ (hp3 : heap Z) r3 n,
         RingBuffer.run hp1 r1 ops = Ret (hp3, r3) ∧
         RingBuffer.capacity r3 = 2 ∧
         RingBuffer.size r3 = Ret n ∧ 0 ≤ n < 2).
Proof.
  apply (RingBuffer_full_looks_empty None ∅ 2 [7; 8]).
  - pose proof int_bounds. lia.
  - reflexivity.
Defined.

Lemma fits_inv z : fits z = true → in_int z.
Proof.
  unfold fits, in_int. intros [? ?]%andb_true_iff. split; now apply Z.leb_le.
Qed.

(** C7: on a well-formed buffer (its [size()] n is then below the capacity),
    [push_front(v)] followed by [pop_front()] succeeds and gives back the
    same cursors, hence the same [size()], and [at(i)] for every
    0 <= i < n observes what it observed before. *)
Theorem RingBuffer_push_front_pop_front {T : Type} (hp : heap T)
    (r : RingBuffer.t) (v : T) (n : Z) :
  RingBuffer_wf hp r →
  RingBuffer.size r = Ret n →
  n < RingBuffer.capacity r →
  ∃ (hp1 : heap T) r1 r2,
    RingBuffer.push_front hp r v = Ret (hp1, r1) ∧
    RingBuffer.pop_front r1 = Ret r2 ∧
    RingBuffer_wf hp1 r2 ∧
    r2 = r ∧
    RingBuffer.size r2 = Ret n ∧
    RingBuffer.capacity r2 = RingBuffer.capacity r ∧
    (∀ i, 0 ≤ i < n → RingBuffer.at_ hp1 r2 i = RingBuffer.at_ hp r i).
Proof.
  intros Hwf Hsize Hn.
  pose proof Hwf as (HK & Hb & He & l & a & Hd & Hl & Hlen).
  pose proof (prev_range _ _ Hb) as Hp.
  pose proof (push_front_Ret hp r v l a Hwf Hd Hl) as Hpush.
  destruct (step_wf hp r (RingBuffer.PushFront v) Hwf)
    as (hp1 & r1 & Hstep & Hwf1 & _).
  cbn [RingBuffer.step] in Hstep. rewrite Hpush in Hstep.
  injection Hstep as <- <-.
  pose proof (pop_front_Ret _ _ Hwf1) as Hpop.
  destruct (step_wf _ _ RingBuffer.PopFront Hwf1)
    as (hp2 & r2 & Hstep & Hwf2 & _).
  cbn [RingBuffer.step] in Hstep. rewrite Hpop in Hstep.
  cbn [mbind outcome_bind] in Hstep. injection Hstep as <- <-.
  destruct r as [d K b e].
  unfold RingBuffer.capacity, RingBuffer.set_begin in *.
  cbn [RingBuffer.capacity_ RingBuffer.begin_ RingBuffer.data
       RingBuffer.end_] in *.
  rewrite next_prev in Hpop, Hwf2 by assumption.
  eexists _, _, _.
  split; [exact Hpush|]. split; [exact Hpop|].
  split; [exact Hwf2|]. split; [reflexivity|]. split; [exact Hsize|].
  split; [reflexivity|].
  intros i Hi. rewrite (size_Ret hp _ Hwf) in Hsize.
  cbn [RingBuffer.begin_ RingBuffer.end_ RingBuffer.capacity_] in Hsize.
  injection Hsize as Hsize.
  unfold RingBuffer.at_, int_add, chk.
  cbn [RingBuffer.begin_ RingBuffer.capacity_ RingBuffer.data].
  destruct (fits (b + i)) eqn:Hfit; [|reflexivity].
  apply fits_inv in Hfit. cbn [mbind outcome_bind].
  rewrite int_rem_Ret by (assumption || lia). cbn [mbind outcome_bind].
  rewrite Hd.
  eapply load_ext; [apply lookup_insert_eq | exact Hl |].
  apply list_lookup_insert_ne.
  assert (0 ≤ (b + i) `mod` K) by (apply Z.mod_pos_bound; lia).
  enough ((b + i) `mod` K ≠ prev K b) by lia.
  rewrite mod_wrap by (destruct (Z.ltb_spec e b); lia).
  unfold prev.
  destruct (Z.ltb_spec e b), (Z.ltb_spec (b + i) K),
    (Z.ltb_spec (b - 1) 0); lia.
Qed.

Lemma RingBuffer_push_front_pop_front_witness :
  ∃ (hp1 : heap Z) r1 r2,
    RingBuffer.push_front {[ 1%positive := [Some 5; Some 6; None] ]}
      (RingBuffer.mk (Ptr 1%positive) 3 0 2) 9 = Ret (hp1, r1) ∧
    RingBuffer.pop_front r1 = Ret r2 ∧
    RingBuffer_wf hp1 r2 ∧
    r2 = RingBuffer.mk (Ptr 1%positive) 3 0 2 ∧
    RingBuffer.size r2 = Ret 2 ∧
    RingBuffer.capacity r2
      = RingBuffer.capacity (RingBuffer.mk (Ptr 1%positive) 3 0 2) ∧
    (∀ i, 0 ≤ i < 2 →
       RingBuffer.at_ hp1 r2 i
       = RingBuffer.at_ {[ 1%positive := [Some 5; Some 6; None] ]}
           (RingBuffer.mk (Ptr 1%positive) 3 0 2) i).
Proof.
  apply (RingBuffer_push_front_pop_front
           {[ 1%positive := [Some 5; Some 6; None] ]}
           (RingBuffer.mk (Ptr 1%positive) 3 0 2) 9 2).
  - unfold RingBuffer_wf. cbn [RingBuffer.capacity_ RingBuffer.begin_
                               RingBuffer.end_ RingBuffer.data].
    pose proof int_bounds. split_and!; try lia.
    exists 1%positive, [Some 5; Some 6; None]. now split_and!.
  - reflexivity.
  - reflexivity.
Defined.

(** ** The copy constructor of the ring buffer *)

Section RingCopy.
Context {T : Type}.
Implicit Types (hp : heap T) (r : RingBuffer.t).

(** Copying a range onto itself changes no cell. *)
Lemma copy_loop_self (n : nat) : ∀ hp l (a : list (option T)) (k : nat),
  hp !! l = Some a → (k + n ≤ length a)%nat →
  copy_loop hp (Ptr l) (Z.of_nat k) n (Ptr l) (Z.of_nat k) = Ret hp.
Proof.
  induction n as [|n IH]; intros hp l a k Hl Hk; [reflexivity|].
  destruct (lookup_lt_is_Some_2 a k ltac:(lia)) as [c Hc].
  cbn [copy_loop].
  rewrite (load_cell_Ret hp l a _ c)
    by (assumption || lia || now rewrite Nat2Z.id).
  cbn [mbind outcome_bind]. rewrite (store_Ret hp l a) by (assumption || lia).
  cbn [mbind outcome_bind].
  rewrite Nat2Z.id, list_insert_id, insert_id by assumption.
  replace (Z.of_nat k + 1) with (Z.of_nat (S k)) by lia.
  apply (IH hp l a); [assumption | lia].
Qed.

(** The object made by the copy constructor holds the pointer of its
    source: no array is allocated and the store is left as it was. *)
Lemma RingBuffer_copy_ctor_alias hp r :
  RingBuffer_wf hp r → RingBuffer.copy_ctor hp r = Ret (hp, r).
Proof.
  intros (HK & _ & _ & l & a & Hd & Hl & Hlen).
  unfold RingBuffer.copy_ctor, std_copy.
  cbn [fst snd RingBuffer.data RingBuffer.capacity_].
  rewrite decide_True by reflexivity. rewrite Hd, Z.sub_0_r.
  rewrite (copy_loop_self _ hp l a 0) by (assumption || lia).
  cbn [mbind outcome_bind]. rewrite <- Hd. now destruct r.
Qed.

(** Destroying an object and then its copy deletes the one array twice. *)
Lemma RingBuffer_copy_double_delete hp hp' r :
  RingBuffer_wf hp r →
  RingBuffer.dtor hp r = Ret hp' → RingBuffer.dtor hp' r = Undef.
Proof.
  intros (_ & _ & _ & l & a & Hd & Hl & _).
  unfold RingBuffer.dtor, delete_array. rewrite Hd, Hl.
  intros [= <-]. now rewrite lookup_delete_eq.
Qed.

End RingCopy.

(** C1 at a concrete buffer: [RingBuffer<int> r(4); RingBuffer<int> r2(r);]
    then [r.push_back(1); r2.push_back(2);].  Both objects hold the same
    array; after the push on r, [r.size() == 1] and [r.at(0) == 1]; after the
    push on the copy r2, [r.at(0)] is 2, with r itself untouched. *)
Theorem RingBuffer_copy_shares_array :
  (s ← RingBuffer.ctor None (∅ : heap Z) 4;
   c ← RingBuffer.copy_ctor s.1 s.2;
   p ← RingBuffer.push_back c.1 s.2 1;
   q ← RingBuffer.push_back p.1 c.2 2;
   Ret (RingBuffer.data s.2, RingBuffer.data c.2,
        RingBuffer.size p.2, RingBuffer.at_ p.1 p.2 0,
        RingBuffer.at_ q.1 p.2 0))
  = Ret (Ptr 1%positive, Ptr 1%positive, Ret 1, Ret 1, Ret 2).
Proof. vm_compute. reflexivity. Qed.

(** * Further properties of the code *)

(** ** Directions and steps *)

(** X1: [operator - (Dir)] is an involution without fixed point: inverting
    twice gives the direction back, and no direction is its own inverse. *)
Theorem Dir_neg_involution_no_fixpoint (d : Dir) :
  Dir_neg (Dir_neg d) = d ∧ Dir_neg d ≠ d.
Proof. destruct d; split; (reflexivity || discriminate). Qed.

(** X2: a step that is defined is undone by the step in the inverse
    direction: if [c + d] is c' then [c' + (-d)] is c again (for c with
    [int] components); in particular the way back never overflows. *)
Theorem Coord_add_neg_round_trip (c c' : Coord) (d : Dir) :
  in_int (x c) → in_int (y c) →
  Coord_add c d = Ret c' →
  Coord_add c' (Dir_neg d) = Ret c.
Proof.
  intros Hx Hy. destruct c as [cx cy]. cbn [x y] in *.
  unfold Coord_add, int_add, int_sub, chk.
  destruct d; cbn [Dir_neg x y];
    match goal with |- context [fits ?z] => destruct (fits z) eqn:Hf end;
    cbn [mbind outcome_bind]; try discriminate; intros [= <-]; cbn [x y];
    match goal with
    | |- context [fits ?z] => rewrite (fits_in_int z) by
          (unfold in_int in *; lia)
    end; cbn [mbind outcome_bind]; do 2 f_equal; lia.
Qed.

Lemma Coord_add_neg_round_trip_witness :
  Coord_add (mkCoord 0 1) (Dir_neg up) = Ret (mkCoord 0 2).
Proof.
  apply (Coord_add_neg_round_trip (mkCoord 0 2) (mkCoord 0 1) up);
    [unfold in_int; cbn; pose proof int_bounds; lia ..| reflexivity].
Defined.

Lemma is_neighbor_diff_ok a b :
  diff_ok a b →
  is_neighbor a b =
    Ret (if x a =? x b then Z.abs (y a - y b) =? 1
         else if y a =? y b then Z.abs (x a - x b) =? 1 else false).
Proof.
  intros [Hx Hy]. unfold is_neighbor, int_abs.
  destruct (x a =? x b); [|destruct (y a =? y b)]; int_ok;
    rewrite ?chk_Ret by (unfold in_int; pose proof int_bounds; lia);
    reflexivity.
Qed.

(** X3: where its arithmetic does not overflow, [is_neighbor(a, b)] is true
    exactly when the Manhattan distance of a and b is 1, and it is
    symmetric in its arguments. *)
Theorem is_neighbor_iff_manhattan (a b : Coord) :
  diff_ok a b → diff_ok b a →
  (is_neighbor a b = Ret true ↔ manhattan a b = 1) ∧
  (is_neighbor a b = Ret false ↔ manhattan a b ≠ 1) ∧
  is_neighbor a b = is_neighbor b a.
Proof.
  intros Hab Hba. rewrite !is_neighbor_diff_ok by assumption.
  unfold manhattan.
  repeat match goal with
         | |- context [?u =? ?v] => destruct (Z.eqb_spec u v)
         end;
    split_and!; try split; intros; try discriminate; try reflexivity;
    try lia; try congruence.
Qed.

Lemma is_neighbor_iff_manhattan_witness :
  (is_neighbor (mkCoord 2 3) (mkCoord 2 4) = Ret true
   ↔ manhattan (mkCoord 2 3) (mkCoord 2 4) = 1) ∧
  (is_neighbor (mkCoord 2 3) (mkCoord 2 4) = Ret false
   ↔ manhattan (mkCoord 2 3) (mkCoord 2 4) ≠ 1) ∧
  is_neighbor (mkCoord 2 3) (mkCoord 2 4)
  = is_neighbor (mkCoord 2 4) (mkCoord 2 3).
Proof.
  apply (is_neighbor_iff_manhattan (mkCoord 2 3) (mkCoord 2 4));
    unfold diff_ok; cbn [x y]; pose proof int_bounds; lia.
Defined.

(** X4: the two adjacency tests of the code agree: on valid coordinates,
    [operator - (a, b)] returns a direction exactly when [is_neighbor(a, b)]
    is true, and throws exactly when it is false. *)
Theorem Coord_sub_defined_iff_is_neighbor (a b : Coord) :
  valid a = true → valid b = true →
  ((∃ d, Coord_sub a b = Ret d) ↔ is_neighbor a b = Ret true) ∧
  (Coord_sub a b = Throw "Not a dir" ↔ is_neighbor a b = Ret false).
Proof.
  intros Ha Hb.
  pose proof (valid_interior _ Hb) as Hib.
  apply valid_in_bounds in Ha, Hb. unfold in_bounds in *.
  pose proof w_h_bounds. pose proof int_bounds.
  rewrite is_neighbor_diff_ok by (unfold diff_ok; lia).
  rewrite Coord_sub_interior by assumption.
  repeat match goal with
         | |- context [?u =? ?v] => destruct (Z.eqb_spec u v)
         end;
    split; split; try intros [d Hd]; intros; try discriminate;
    try reflexivity; try lia; eauto.
Qed.

Lemma Coord_sub_defined_iff_is_neighbor_witness :
  ((∃ d, Coord_sub (mkCoord 2 3) (mkCoord 2 4) = Ret d)
   ↔ is_neighbor (mkCoord 2 3) (mkCoord 2 4) = Ret true) ∧
  (Coord_sub (mkCoord 2 3) (mkCoord 2 4) = Throw "Not a dir"
   ↔ is_neighbor (mkCoord 2 3) (mkCoord 2 4) = Ret false).
Proof.
  apply (Coord_sub_defined_iff_is_neighbor (mkCoord 2 3) (mkCoord 2 4));
    reflexivity.
Defined.

(** X5: the table [dirs] lists every direction once, and the steps from a
    coordinate c (with representable neighbours) along the directions of
    [dirs] reach exactly the coordinates at Manhattan distance 1 from c. *)
Theorem dirs_steps_are_the_neighbours (c : Coord) :
  interior c →
  NoDup dirs ∧ (∀ d, d ∈ dirs) ∧
  ∀ b, (∃ d, d ∈ dirs ∧ Coord_add c d = Ret b) ↔ manhattan c b = 1.
Proof.
  intros Hc. split_and!.
  - unfold dirs.
    repeat (apply NoDup_cons_2;
            [rewrite ?elem_of_cons, elem_of_nil; intuition discriminate|]).
    apply NoDup_nil_2.
  - intros []; unfold dirs; set_solver.
  - intros b. unfold manhattan. split.
    + intros (d & _ & Hd). rewrite Coord_add_interior in Hd by assumption.
      destruct d; injection Hd as <-; cbn [x y]; lia.
    + intros Hm. destruct b as [bx by_]. cbn [x y] in Hm.
      assert (Hcase : (bx = x c ∧ by_ = y c - 1) ∨ (bx = x c ∧ by_ = y c + 1)
                ∨ (bx = x c - 1 ∧ by_ = y c) ∨ (bx = x c + 1 ∧ by_ = y c))
        by lia.
      destruct Hcase as [[-> ->]|[[-> ->]|[[-> ->]|[-> ->]]]];
        [exists up | exists down | exists left | exists right];
        (split; [unfold dirs; set_solver
                | now rewrite Coord_add_interior by assumption]).
Qed.

Lemma dirs_steps_are_the_neighbours_witness :
  NoDup dirs ∧ (∀ d, d ∈ dirs) ∧
  ∀ b, (∃ d, d ∈ dirs ∧ Coord_add (mkCoord 0 0) d = Ret b)
       ↔ manhattan (mkCoord 0 0) b = 1.
Proof.
  apply (dirs_steps_are_the_neighbours (mkCoord 0 0)).
  unfold interior; cbn [x y]; pose proof int_bounds; lia.
Defined.

(** ** The coordinate range *)

Lemma cell_index_row W yy :
  cell_index W <$> CoordRange.row W yy = seqZ (W * yy) W.
Proof.
  unfold CoordRange.row. rewrite <- list_fmap_compose.
  replace (seqZ (W * yy) W) with (Z.add (W * yy) <$> seqZ 0 W)
    by (rewrite fmap_add_seqZ; f_equal; lia).
  apply list_fmap_ext. intros _ xx _. unfold cell_index. cbn. lia.
Qed.

Lemma cell_index_rows W (n : nat) : ∀ y0,
  0 ≤ W →
  cell_index W <$> (seqZ y0 (Z.of_nat n) ≫= CoordRange.row W)
    = seqZ (W * y0) (W * Z.of_nat n).
Proof.
  induction n as [|n IH]; intros y0 HW.
  - now rewrite Z.mul_0_r.
  - rewrite (seqZ_cons y0) by lia. rewrite bind_cons, fmap_app.
    replace (Z.pred (Z.of_nat (S n))) with (Z.of_nat n) by lia.
    rewrite cell_index_row, IH by assumption.
    replace (W * Z.of_nat (S n)) with (W + W * Z.of_nat n) by lia.
    rewrite seqZ_app by nia. do 2 f_equal. lia.
Qed.

(** X6: [operator ++] on an iterator at a valid coordinate is defined,
    moves one position on in row-major order (the position [x + w*y] grows
    by 1), and arrives at a valid coordinate or at [end()], at [end()]
    exactly from the last cell (w-1, h-1); the iterator it started from is
    different from [end()]. *)
Theorem CoordRange_incr_valid (it : CoordRange.iterator) :
  valid (CoordRange.coord it) = true →
  ∃ it', CoordRange.incr it = Ret it' ∧
    cell_index w (CoordRange.coord it')
      = cell_index w (CoordRange.coord it) + 1 ∧
    (valid (CoordRange.coord it') = true ∨ it' = CoordRange.end_) ∧
    (it' = CoordRange.end_
     ↔ CoordRange.coord it = mkCoord (w - 1) (h - 1)) ∧
    CoordRange.ne it CoordRange.end_ = true.
Proof.
  intros Hv. apply valid_in_bounds in Hv as [Hx Hy].
  pose proof w_h_bounds as [Hw Hh]. pose proof int_bounds as [Hmin Hmax].
  destruct it as [[cx cy]]. cbn [CoordRange.coord x y] in *.
  unfold CoordRange.incr. cbn [CoordRange.coord x y]. int_ok.
  destruct (Z.eqb_spec (cx + 1) w) as [Hlast|Hmid]; int_ok;
    eexists; (split; [reflexivity|]);
    cbn [CoordRange.coord]; unfold cell_index; cbn [x y]; split_and!.
  - lia.
  - destruct (decide (cy + 1 = h)) as [->|Hne]; [now right|left].
    apply valid_in_bounds. unfold in_bounds. cbn [x y]. lia.
  - unfold CoordRange.end_. split; intros [= ?]; f_equal; f_equal; lia.
  - now apply ne_end_inside.
  - lia.
  - left. apply valid_in_bounds. unfold in_bounds. cbn [x y]. lia.
  - unfold CoordRange.end_. split; intros [= ? ?]; lia.
  - now apply ne_end_inside.
Qed.

Lemma CoordRange_incr_valid_witness :
  ∃ it', CoordRange.incr (CoordRange.mkIt (mkCoord 29 4)) = Ret it' ∧
    cell_index w (CoordRange.coord it')
      = cell_index w (CoordRange.coord (CoordRange.mkIt (mkCoord 29 4))) + 1 ∧
    (valid (CoordRange.coord it') = true ∨ it' = CoordRange.end_) ∧
    (it' = CoordRange.end_
     ↔ CoordRange.coord (CoordRange.mkIt (mkCoord 29 4))
       = mkCoord (w - 1) (h - 1)) ∧
    CoordRange.ne (CoordRange.mkIt (mkCoord 29 4)) CoordRange.end_ = true.
Proof.
  apply (CoordRange_incr_valid (CoordRange.mkIt (mkCoord 29 4))).
  reflexivity.
Defined.

(** X7: the loop over [coords] visits the cells in the order in which a
    Grid of the default width stores them: the positions [x + w*y] of the
    coordinates visited are 0, 1, ..., w*h - 1 in this order, and for the
    k-th coordinate visited [operator []] of such a Grid addresses
    [data[k]]. *)
Theorem coords_enumeration_in_storage_order (fuel : nat) :
  (Z.to_nat (w * h) < fuel)%nat →
  ∃ l, CoordRange.traverse fuel CoordRange.begin = Some l ∧
       cell_index w <$> l = seqZ 0 (w * h) ∧
       ∀ (g : Grid.t) (k : nat) c, Grid.w g = Some w → l !! k = Some c →
         Grid.subscript g c = Ret (Grid.data g, Z.of_nat k).
Proof.
  intros Hfuel. pose proof w_h_bounds as [Hw Hh].
  pose proof int_bounds as [Hmin Hmax].
  exists (CoordRange.nested_loops w h).
  assert (Hidx : cell_index w <$> CoordRange.nested_loops w h
                 = seqZ 0 (w * h)).
  { unfold CoordRange.nested_loops.
    rewrite <- (Z2Nat.id h) at 1 by lia.
    rewrite cell_index_rows by lia.
    rewrite Z.mul_0_r, Z2Nat.id by lia. reflexivity. }
  split_and!.
  - unfold CoordRange.begin, CoordRange.nested_loops.
    rewrite (traverse_rows (Z.to_nat h)) by lia.
    now rewrite Z2Nat.id by lia.
  - exact Hidx.
  - intros g k c Hg Hk.
    assert (Hin : in_bounds w h c).
    { apply elem_of_nested_loops, list_elem_of_lookup. eauto. }
    assert (Hc : cell_index w c = Z.of_nat k).
    { assert (Hf : (cell_index w <$> CoordRange.nested_loops w h) !! k
                   = Some (cell_index w c))
        by (rewrite list_lookup_fmap, Hk; reflexivity).
      rewrite Hidx in Hf. apply lookup_seqZ in Hf. lia. }
    unfold cell_index in Hc. unfold in_bounds in Hin.
    assert (Hwh : w * h = 900) by reflexivity.
    assert (Hw30 : w = 30) by reflexivity.
    assert (0 ≤ w * y c ≤ w * h) by nia.
    unfold Grid.subscript. rewrite Hg. cbn [rd mbind outcome_bind].
    int_ok. now rewrite Hc.
Qed.

Lemma coords_enumeration_in_storage_order_witness :
  ∃ l, CoordRange.traverse 901 CoordRange.begin = Some l ∧
       cell_index w <$> l = seqZ 0 (w * h) ∧
       ∀ (g : Grid.t) (k : nat) c, Grid.w g = Some w → l !! k = Some c →
         Grid.subscript g c = Ret (Grid.data g, Z.of_nat k).
Proof.
  apply (coords_enumeration_in_storage_order 901). vm_compute. lia.
Defined.

(** X8: a loop over the coordinate range that is started at an iterator
    outside the grid, in a column at or beyond w or in a row beyond h, never
    reaches [end()]: whatever the number of rounds, it is still running or
    has overflowed a coordinate. *)
Theorem coords_loop_from_outside_never_ends (fuel : nat) :
  ∀ it : CoordRange.iterator,
  w ≤ x (CoordRange.coord it) ∨ h < y (CoordRange.coord it) →
  CoordRange.traverse fuel it = None.
Proof.
  pose proof w_h_bounds as [Hw Hh].
  induction fuel as [|fuel IH]; intros [[cx cy]] Hout; [reflexivity|].
  cbn [CoordRange.coord x y] in Hout. cbn [CoordRange.traverse].
  assert (Hne : CoordRange.ne (CoordRange.mkIt (mkCoord cx cy))
                  CoordRange.end_ = true).
  { unfold CoordRange.ne, Coord_ne, Coord_eq, CoordRange.end_.
    cbn [CoordRange.coord x y].
    destruct (Z.eqb_spec cx 0), (Z.eqb_spec cy h); try reflexivity. lia. }
  rewrite Hne. unfold CoordRange.incr, int_add, chk.
  cbn [CoordRange.coord x y].
  destruct (fits (cx + 1)); [|reflexivity]. cbn [mbind outcome_bind].
  destruct (Z.eqb_spec (cx + 1) w).
  - destruct (fits (cy + 1)); [|reflexivity]. cbn [mbind outcome_bind].
    rewrite IH; [reflexivity|]. cbn [CoordRange.coord x y]. lia.
  - rewrite IH; [reflexivity|]. cbn [CoordRange.coord x y]. lia.
Qed.

Lemma coords_loop_from_outside_never_ends_witness :
  CoordRange.traverse 2000 (CoordRange.mkIt (mkCoord 0 31)) = None.
Proof.
  apply (coords_loop_from_outside_never_ends 2000).
  right. cbn. reflexivity.
Defined.

(** ** Grid: copies, destruction, unchecked indexing, iteration *)

Section GridMore.
Context {T : Type}.
Variable T_new : option T.
Implicit Types (hp : heap T) (g : Grid.t) (c : Coord).

Lemma load_Ret_inv hp l (a : list (option T)) i v :
  hp !! l = Some a → load hp (Ptr l) i = Ret v →
  0 ≤ i ∧ a !! Z.to_nat i = Some (Some v).
Proof.
  intros Hl. unfold load, load_cell. rewrite Hl.
  destruct (Z.leb_spec 0 i); [|discriminate].
  destruct (a !! Z.to_nat i) as [[u|]|]; cbn [mbind outcome_bind];
    try discriminate.
  intros [= ->]. now split.
Qed.

(** Reads and writes through a pointer to a block that is not live, or at
    an offset outside the block, are undefined. *)
Lemma load_outside hp l (a : list (option T)) i :
  hp !! l = Some a → ¬ (0 ≤ i < Z.of_nat (length a)) →
  load hp (Ptr l) i = Undef.
Proof.
  intros Hl Hi. unfold load, load_cell. rewrite Hl.
  destruct (Z.leb_spec 0 i); [|reflexivity].
  rewrite (lookup_ge_None_2 a (Z.to_nat i)) by lia. reflexivity.
Qed.

Lemma store_outside hp l (a : list (option T)) i cell :
  hp !! l = Some a → ¬ (0 ≤ i < Z.of_nat (length a)) →
  store hp (Ptr l) i cell = Undef.
Proof.
  intros Hl Hi. unfold store. rewrite Hl.
  destruct (Z.leb_spec 0 i), (Z.ltb_spec i (Z.of_nat (length a)));
    try reflexivity. lia.
Qed.

(** [copy_loop] between two distinct arrays, from offset [k]: [n] cells of
    the destination are replaced by those of the source. *)
Lemma copy_loop_Ret (n : nat) : ∀ hp l l' (a a' : list (option T)) (k : nat),
  l ≠ l' → hp !! l = Some a → hp !! l' = Some a' →
  (k + n ≤ length a)%nat → (k + n ≤ length a')%nat →
  copy_loop hp (Ptr l) (Z.of_nat k) n (Ptr l') (Z.of_nat k) =
    Ret (<[l' := take k a' ++ take n (drop k a) ++ drop (k + n) a']> hp).
Proof.
  induction n as [|n IH]; intros hp l l' a a' k Hne Hl Hl' Hk Hk'.
  - cbn [copy_loop]. rewrite take_0, Nat.add_0_r. cbn [app].
    rewrite take_drop.
    now rewrite insert_id.
  - destruct (lookup_lt_is_Some_2 a k ltac:(lia)) as [cell Hc].
    cbn [copy_loop].
    rewrite (load_cell_Ret hp l a _ cell)
      by (assumption || lia || now rewrite Nat2Z.id).
    cbn [mbind outcome_bind].
    rewrite (store_Ret hp l' a') by (assumption || lia).
    cbn [mbind outcome_bind]. rewrite Nat2Z.id.
    replace (Z.of_nat k + 1) with (Z.of_nat (S k)) by lia.
    rewrite (IH _ l l' a (<[k := cell]> a'));
      [| assumption | now rewrite lookup_insert_ne | apply lookup_insert_eq
       | lia | rewrite length_insert; lia].
    rewrite insert_insert_eq. do 2 f_equal.
    rewrite (take_S_r _ k cell) by (apply list_lookup_insert_eq; lia).
    rewrite take_insert_ge by lia. rewrite drop_insert_lt by lia.
    rewrite (drop_S a cell k) by assumption. rewrite firstn_cons.
    rewrite <- (assoc_L (++)). cbn [app].
    now replace (S k + n)%nat with (k + S n)%nat by lia.
Qed.

Lemma Grid_copy_ctor_Ret hp g W H l (a : list (option T)) :
  Grid_wf hp g W H → Grid.data g = Ptr l → hp !! l = Some a →
  Grid.copy_ctor T_new hp g =
    Ret (<[fresh (dom hp) := a]> hp,
         Grid.mk (Ptr (fresh (dom hp))) (Some W) (Some H)).
Proof.
  intros (Hw & Hh & Hmax & l0 & a0 & Hd0 & Hl0 & Hlen) Hd Hl.
  rewrite Hd in Hd0. injection Hd0 as <-.
  rewrite Hl in Hl0. injection Hl0 as <-.
  pose proof (fresh_block hp) as Hfresh.
  assert (Hne : l ≠ fresh (dom hp)) by congruence.
  unfold Grid.copy_ctor. rewrite Hw, Hh. cbn [rd]. int_ok.
  rewrite new_array_Ret by lia. cbn [mbind outcome_bind].
  unfold Grid.begin, Grid.end_, Grid.size. rewrite Hw, Hh. cbn [rd].
  int_ok. unfold std_copy. cbn [fst snd Grid.data].
  rewrite decide_True by reflexivity. rewrite Hd, Z.sub_0_r.
  rewrite (copy_loop_Ret _ _ l (fresh (dom hp)) a
             (replicate (Z.to_nat (W * H)) T_new) 0);
    [| assumption | now rewrite lookup_insert_ne | apply lookup_insert_eq
     | lia | rewrite length_replicate; lia].
  cbn [mbind outcome_bind Nat.add]. rewrite take_0, drop_0. cbn [app].
  rewrite insert_insert_eq.
  rewrite drop_ge by (rewrite length_replicate; lia).
  rewrite app_nil_r, take_ge by lia. reflexivity.
Qed.

(** A live grid keeps its invariant when another block of the store is
    written or added, and its reads do not change. *)
Lemma Grid_wf_frame hp g W H l l' (a' : list (option T)) :
  Grid_wf hp g W H → Grid.data g = Ptr l → l ≠ l' →
  Grid_wf (<[l' := a']> hp) g W H ∧
  ∀ c, Grid.get (<[l' := a']> hp) g c = Grid.get hp g c.
Proof.
  intros (Hw & Hh & Hmax & l0 & a0 & Hd0 & Hl0 & Hlen) Hd Hne.
  rewrite Hd in Hd0. injection Hd0 as <-. split.
  - split_and!; try assumption. exists l, a0.
    split_and!; try assumption. now rewrite lookup_insert_ne.
  - intros c. unfold Grid.get.
    destruct (Grid.subscript g c) as [[p i]| |] eqn:Hs; try reflexivity.
    cbn [mbind outcome_bind fst snd].
    assert (p = Ptr l) as ->.
    { unfold Grid.subscript in Hs. rewrite Hw in Hs. cbn [rd] in Hs.
      cbn [mbind outcome_bind] in Hs.
      destruct (int_mul W (y c)); try discriminate.
      cbn [mbind outcome_bind] in Hs.
      destruct (int_add (x c) a); try discriminate.
      cbn [mbind outcome_bind] in Hs. congruence. }
    unfold load, load_cell. now rewrite lookup_insert_ne.
Qed.

End GridMore.

(** X9: the copy constructor of Grid makes a deep copy: it succeeds on every
    well-formed grid, the new object owns an array of its own with the
    dimensions of the source, the source is as it was, and the copy reads at
    every coordinate what the source reads. *)
Theorem Grid_copy_ctor_deep {T : Type} (T_new : option T) (hp : heap T)
    (g : Grid.t) (W H : Z) :
  Grid_wf hp g W H →
  ∃ (hp' : heap T) g',
    Grid.copy_ctor T_new hp g = Ret (hp', g') ∧
    Grid.data g' ≠ Grid.data g ∧
    Grid_wf hp' g' W H ∧ Grid_wf hp' g W H ∧
    Grid.size g' = Grid.size g ∧
    ∀ c, Grid.get hp' g' c = Grid.get hp g c ∧
         Grid.get hp' g c = Grid.get hp g c.
Proof.
  intros Hwf.
  pose proof Hwf as (Hw & Hh & Hmax & l & a & Hd & Hl & Hlen).
  pose proof (fresh_block hp) as Hfresh.
  assert (Hne : l ≠ fresh (dom hp)) by congruence.
  eexists _, _. split; [exact (Grid_copy_ctor_Ret T_new hp g W H l a Hwf Hd Hl)|].
  destruct (Grid_wf_frame hp g W H l (fresh (dom hp)) a Hwf Hd Hne)
    as [Hwf' Hget].
  split_and!.
  - cbn [Grid.data]. rewrite Hd. congruence.
  - split_and!; try reflexivity; try assumption.
    eexists _, a. split_and!; [reflexivity | apply lookup_insert_eq | exact Hlen].
  - exact Hwf'.
  - unfold Grid.size. cbn [Grid.w Grid.h]. now rewrite Hw, Hh.
  - intros c. split; [|apply Hget].
    unfold Grid.get, Grid.subscript. cbn [Grid.w Grid.data]. rewrite Hw, Hd.
    cbn [rd mbind outcome_bind].
    destruct (int_mul W (y c)) as [m| |]; try reflexivity.
    cbn [mbind outcome_bind].
    destruct (int_add (x c) m) as [i| |]; try reflexivity.
    cbn [mbind outcome_bind fst snd].
    unfold load, load_cell. now rewrite lookup_insert_eq, Hl.
Qed.

Lemma Grid_copy_ctor_deep_witness :
  ∃ (hp' : heap Z) g',
    Grid.copy_ctor None {[ 1%positive := [Some 4; Some 5] ]}
      (Grid.mk (Ptr 1%positive) (Some 2) (Some 1)) = Ret (hp', g') ∧
    Grid.data g' ≠ Grid.data (Grid.mk (Ptr 1%positive) (Some 2) (Some 1)) ∧
    Grid_wf hp' g' 2 1 ∧
    Grid_wf hp' (Grid.mk (Ptr 1%positive) (Some 2) (Some 1)) 2 1 ∧
    Grid.size g' = Grid.size (Grid.mk (Ptr 1%positive) (Some 2) (Some 1)) ∧
    ∀ c, Grid.get hp' g' c
         = Grid.get {[ 1%positive := [Some 4; Some 5] ]}
             (Grid.mk (Ptr 1%positive) (Some 2) (Some 1)) c ∧
         Grid.get hp' (Grid.mk (Ptr 1%positive) (Some 2) (Some 1)) c
         = Grid.get {[ 1%positive := [Some 4; Some 5] ]}
             (Grid.mk (Ptr 1%positive) (Some 2) (Some 1)) c.
Proof.
  apply (Grid_copy_ctor_deep None {[ 1%positive := [Some 4; Some 5] ]}
           (Grid.mk (Ptr 1%positive) (Some 2) (Some 1)) 2 1).
  split_and!; try reflexivity; [pose proof int_bounds; lia|].
  exists 1%positive, [Some 4; Some 5]. now split_and!.
Defined.

(** X10: a Grid and its copy are independent.  After the copy the two
    objects hold different arrays, and in every later state in which both
    are well-formed, an assignment through [operator []] of either one
    succeeds, keeps both well-formed and changes no read of the other. *)
Theorem Grid_copy_independent {T : Type} (T_new : option T)
    (hp hp1 : heap T) (g g' : Grid.t) (W H : Z) :
  Grid_wf hp g W H →
  Grid.copy_ctor T_new hp g = Ret (hp1, g') →
  Grid_wf hp1 g W H ∧ Grid_wf hp1 g' W H ∧
  ∀ hp2 : heap T, Grid_wf hp2 g W H → Grid_wf hp2 g' W H →
    ∀ c v, in_bounds W H c →
      (∃ hp3 : heap T, Grid.set hp2 g' c v = Ret hp3 ∧
         Grid_wf hp3 g W H ∧ Grid_wf hp3 g' W H ∧
         ∀ c', Grid.get hp3 g c' = Grid.get hp2 g c') ∧
      (∃ hp3 : heap T, Grid.set hp2 g c v = Ret hp3 ∧
         Grid_wf hp3 g W H ∧ Grid_wf hp3 g' W H ∧
         ∀ c', Grid.get hp3 g' c' = Grid.get hp2 g' c').
Proof.
  intros Hwf Hcopy.
  pose proof Hwf as (Hw & Hh & Hmax & l & a & Hd & Hl & Hlen).
  rewrite (Grid_copy_ctor_Ret T_new hp g W H l a Hwf Hd Hl) in Hcopy.
  injection Hcopy as <- <-.
  pose proof (fresh_block hp) as Hfresh.
  assert (Hne : l ≠ fresh (dom hp)) by congruence.
  split; [apply (Grid_wf_frame hp g W H l _ a Hwf Hd Hne)|].
  split.
  { split_and!; try reflexivity; try assumption.
    eexists _, a.
    split_and!; [reflexivity | apply lookup_insert_eq | exact Hlen]. }
  intros hp2 Hwf2 Hwf2' c v Hc. split.
  - destruct (Grid_set_Ret hp2 _ W H c v Hwf2' Hc)
      as (l' & a' & [= <-] & Hl' & Hset).
    destruct (Grid_set_get hp2 _ W H c v Hwf2' Hc)
      as (hp3 & Hset' & Hwf3' & _).
    rewrite Hset in Hset'. injection Hset' as <-.
    eexists. split; [exact Hset|].
    destruct (Grid_wf_frame hp2 g W H l (fresh (dom hp))
                (<[Z.to_nat (x c + W * y c) := Some v]> a') Hwf2 Hd Hne)
      as [Hwf3 Hget].
    split_and!; assumption.
  - destruct (Grid_set_Ret hp2 g W H c v Hwf2 Hc)
      as (l' & a' & Hd' & Hl' & Hset).
    rewrite Hd in Hd'. injection Hd' as <-.
    destruct (Grid_set_get hp2 g W H c v Hwf2 Hc)
      as (hp3 & Hset' & Hwf3 & _).
    rewrite Hset in Hset'. injection Hset' as <-.
    eexists. split; [exact Hset|].
    destruct (Grid_wf_frame hp2 _ W H (fresh (dom hp)) l
                (<[Z.to_nat (x c + W * y c) := Some v]> a') Hwf2' eq_refl
                ltac:(congruence))
      as [Hwf3' Hget].
    split_and!; assumption.
Qed.

Lemma Grid_copy_independent_witness :
  let g := Grid.mk (Ptr 1%positive) (Some 2) (Some 1) in
  let g' := Grid.mk (Ptr 2%positive) (Some 2) (Some 1) in
  let hp1 : heap Z :=
    <[2%positive := [Some 4; Some 5]]> {[ 1%positive := [Some 4; Some 5] ]} in
  Grid_wf hp1 g 2 1 ∧ Grid_wf hp1 g' 2 1 ∧
  ∀ hp2 : heap Z, Grid_wf hp2 g 2 1 → Grid_wf hp2 g' 2 1 →
    ∀ c v, in_bounds 2 1 c →
      (∃ hp3 : heap Z, Grid.set hp2 g' c v = Ret hp3 ∧
         Grid_wf hp3 g 2 1 ∧ Grid_wf hp3 g' 2 1 ∧
         ∀ c', Grid.get hp3 g c' = Grid.get hp2 g c') ∧
      (∃ hp3 : heap Z, Grid.set hp2 g c v = Ret hp3 ∧
         Grid_wf hp3 g 2 1 ∧ Grid_wf hp3 g' 2 1 ∧
         ∀ c', Grid.get hp3 g' c' = Grid.get hp2 g' c').
Proof.
  apply (Grid_copy_independent None {[ 1%positive := [Some 4; Some 5] ]}).
  - split_and!; try reflexivity; [pose proof int_bounds; lia|].
    exists 1%positive, [Some 4; Some 5]. now split_and!.
  - vm_compute. reflexivity.
Defined.

(** X11: construction followed by destruction gives the store back as it
    was: the destructor releases exactly the array the constructor
    allocated.  After it, every read through the destroyed object is
    undefined, and so is a second destruction. *)
Theorem Grid_ctor_dtor_round_trip {T : Type} (T_new : option T)
    (hp0 : heap T) (v : T) (W H : Z) :
  0 ≤ W * H ≤ int_max →
  ∃ (hp1 : heap T) g,
    Grid.ctor T_new hp0 v W H = Ret (hp1, g) ∧
    Grid.dtor hp1 g = Ret hp0 ∧
    (∀ c, Grid.get hp0 g c = Undef) ∧
    (∀ c u, Grid.set hp0 g c u = Undef) ∧
    Grid.dtor hp0 g = Undef.
Proof.
  intros HWH. pose proof (fresh_block hp0) as Hfresh.
  eexists _, _. split; [apply Grid_ctor_Ret; exact HWH|].
  unfold Grid.dtor, delete_array, Grid.get, Grid.set. cbn [Grid.data].
  rewrite lookup_insert_eq, Hfresh. split_and!; try reflexivity.
  - f_equal. now apply delete_insert_id.
  - intros c. unfold Grid.subscript, int_mul, int_add, chk.
    cbn [Grid.w Grid.data rd mbind outcome_bind].
    destruct (fits (W * y c)); [|reflexivity]. cbn [mbind outcome_bind].
    destruct (fits (x c + W * y c)); [|reflexivity].
    cbn [mbind outcome_bind fst snd].
    unfold load, load_cell. rewrite Hfresh. reflexivity.
  - intros c u. unfold Grid.subscript, int_mul, int_add, chk.
    cbn [Grid.w Grid.data rd mbind outcome_bind].
    destruct (fits (W * y c)); [|reflexivity]. cbn [mbind outcome_bind].
    destruct (fits (x c + W * y c)); [|reflexivity].
    cbn [mbind outcome_bind fst snd].
    unfold store. rewrite Hfresh. reflexivity.
Qed.

Lemma Grid_ctor_dtor_round_trip_witness :
  ∃ (hp1 : heap Z) g,
    Grid.ctor None ∅ 7 3 2 = Ret (hp1, g) ∧
    Grid.dtor hp1 g = Ret ∅ ∧
    (∀ c, Grid.get (∅ : heap Z) g c = Undef) ∧
    (∀ c u, Grid.set (∅ : heap Z) g c u = Undef) ∧
    Grid.dtor (∅ : heap Z) g = Undef.
Proof.
  apply (Grid_ctor_dtor_round_trip None ∅ 7 3 2). pose proof int_bounds. lia.
Defined.

(** X12: the move constructor hands the array over exactly once.  On a
    well-formed source, destroying the moved-from source changes nothing,
    destroying the new object releases the array, and both destructions
    are defined in either order; only a second destruction of the new
    object is undefined. *)
Theorem Grid_move_ctor_single_owner {T : Type} (hp : heap T) (g : Grid.t)
    (W H : Z) :
  Grid_wf hp g W H →
  let (g', src) := Grid.move_ctor g in
  Grid.dtor hp src = Ret hp ∧
  ∃ hp' : heap T, Grid.dtor hp g' = Ret hp' ∧
                  Grid.dtor hp' src = Ret hp' ∧
                  Grid.dtor hp' g' = Undef ∧
                  Grid.dtor hp g = Ret hp'.
Proof.
  intros (_ & _ & _ & l & a & Hd & Hl & _).
  cbn [Grid.move_ctor]. unfold Grid.dtor, delete_array. cbn [Grid.data].
  rewrite Hd, Hl. split; [reflexivity|].
  eexists. split_and!; try reflexivity. now rewrite lookup_delete_eq.
Qed.

Lemma Grid_move_ctor_single_owner_witness :
  let g := Grid.mk (Ptr 1%positive) (Some 2) (Some 1) in
  let hp : heap Z := {[ 1%positive := [Some 4; Some 5] ]} in
  Grid.dtor hp (Grid.move_ctor g).2 = Ret hp ∧
  ∃ hp' : heap Z, Grid.dtor hp (Grid.move_ctor g).1 = Ret hp' ∧
                  Grid.dtor hp' (Grid.move_ctor g).2 = Ret hp' ∧
                  Grid.dtor hp' (Grid.move_ctor g).1 = Undef ∧
                  Grid.dtor hp g = Ret hp'.
Proof.
  apply (Grid_move_ctor_single_owner {[ 1%positive := [Some 4; Some 5] ]}
           (Grid.mk (Ptr 1%positive) (Some 2) (Some 1)) 2 1).
  split_and!; try reflexivity; [pose proof int_bounds; lia|].
  exists 1%positive, [Some 4; Some 5]. now split_and!.
Defined.

Lemma coord_at_in_bounds W H k :
  0 < W → 0 ≤ k < W * H →
  in_bounds W H (coord_at W k) ∧ cell_index W (coord_at W k) = k.
Proof.
  intros HW Hk. unfold in_bounds, coord_at, cell_index. cbn [x y].
  pose proof (Z.mod_pos_bound k W HW).
  pose proof (Z.div_mod k W ltac:(lia)).
  split; [|lia]. split; [lia|]. split.
  - apply Z.div_pos; lia.
  - apply Z.div_lt_upper_bound; lia.
Qed.

(** X13: [operator []] checks nothing but trusts the index [x + w*y].  On a
    well-formed grid of positive width, for any coordinate whose index
    arithmetic is representable: when the index falls inside the array, the
    coordinate addresses the very cell of the in-range coordinate
    [(index mod w, index / w)], reads and writes alike, even if it lies
    outside the grid itself; when it does not, reads and writes are
    undefined. *)
Theorem Grid_subscript_unchecked {T : Type} (hp : heap T) (g : Grid.t)
    (W H : Z) (c : Coord) :
  Grid_wf hp g W H → 0 < W →
  in_int (W * y c) → in_int (x c + W * y c) →
  (0 ≤ cell_index W c < W * H →
     in_bounds W H (coord_at W (cell_index W c)) ∧
     Grid.get hp g c = Grid.get hp g (coord_at W (cell_index W c)) ∧
     ∀ v, Grid.set hp g c v
          = Grid.set hp g (coord_at W (cell_index W c)) v) ∧
  (¬ (0 ≤ cell_index W c < W * H) →
     Grid.get hp g c = Undef ∧ ∀ v, Grid.set hp g c v = Undef).
Proof.
  intros Hwf HW Hm Hi.
  pose proof Hwf as (Hw & Hh & Hmax & l & a & Hd & Hl & Hlen).
  assert (Hsub : Grid.subscript g c = Ret (Ptr l, cell_index W c)).
  { unfold Grid.subscript, int_mul, int_add. rewrite Hw, Hd. cbn [rd].
    cbn [mbind outcome_bind]. rewrite (chk_Ret _ Hm).
    cbn [mbind outcome_bind]. now rewrite (chk_Ret _ Hi). }
  unfold Grid.get, Grid.set. rewrite Hsub. cbn [mbind outcome_bind fst snd].
  split.
  - intros Hk.
    destruct (coord_at_in_bounds W H _ HW Hk) as [Hin Hidx].
    rewrite (Grid_subscript_Ret hp g W H _ Hwf Hin).
    cbn [mbind outcome_bind fst snd].
    fold (cell_index W (coord_at W (cell_index W c))).
    rewrite Hidx, Hd. now split_and!.
  - intros Hk. split; [|intros v].
    + apply (load_outside hp l a); [assumption | lia].
    + apply (store_outside hp l a); [assumption | lia].
Qed.

Lemma Grid_subscript_unchecked_witness :
  let g := Grid.mk (Ptr 1%positive) (Some 2) (Some 2) in
  let hp : heap Z := {[ 1%positive := [Some 4; Some 5; Some 6; Some 7] ]} in
  let c := mkCoord 2 0 in
  (0 ≤ cell_index 2 c < 2 * 2 →
     in_bounds 2 2 (coord_at 2 (cell_index 2 c)) ∧
     Grid.get hp g c = Grid.get hp g (coord_at 2 (cell_index 2 c)) ∧
     ∀ v, Grid.set hp g c v
          = Grid.set hp g (coord_at 2 (cell_index 2 c)) v) ∧
  (¬ (0 ≤ cell_index 2 c < 2 * 2) →
     Grid.get hp g c = Undef ∧ ∀ v, Grid.set hp g c v = Undef).
Proof.
  apply (Grid_subscript_unchecked
           {[ 1%positive := [Some 4; Some 5; Some 6; Some 7] ]}
           (Grid.mk (Ptr 1%positive) (Some 2) (Some 2)) 2 2 (mkCoord 2 0)).
  - split_and!; try reflexivity; [pose proof int_bounds; lia|].
    exists 1%positive, [Some 4; Some 5; Some 6; Some 7]. now split_and!.
  - lia.
  - unfold in_int. cbn [x y]. pose proof int_bounds. lia.
  - unfold in_int. cbn [x y]. pose proof int_bounds. lia.
Defined.

(** The pointer loop over [length vs] cells that hold the values [vs]. *)
Lemma range_for_block {T : Type} (vs : list T) :
  ∀ (fuel : nat) (hp : heap T) l (a : list (option T)) (k : nat),
  hp !! l = Some a →
  (∀ (i : nat) v, vs !! i = Some v → a !! (k + i)%nat = Some (Some v)) →
  (length vs < fuel)%nat →
  range_for fuel hp (Ptr l, Z.of_nat k) (Ptr l, Z.of_nat (k + length vs))
    = Some vs.
Proof.
  induction vs as [|v vs IH]; intros fuel hp l a k Hl Ha Hfuel;
    (destruct fuel as [|fuel]; [cbn [length] in Hfuel; lia|]);
    cbn [range_for length].
  - rewrite Nat.add_0_r. now rewrite decide_True by reflexivity.
  - rewrite decide_False by (intros [= ?]; lia). cbn [fst snd].
    rewrite (load_Ret hp l a _ v);
      [| assumption | lia
       | rewrite Nat2Z.id; specialize (Ha 0%nat v eq_refl);
         now rewrite Nat.add_0_r in Ha].
    replace (Z.of_nat k + 1) with (Z.of_nat (S k)) by lia.
    replace (k + S (length vs))%nat with (S k + length vs)%nat by lia.
    rewrite (IH fuel hp l a (S k)); [reflexivity | assumption | | cbn in Hfuel; lia].
    intros i u Hi. specialize (Ha (S i) u Hi).
    now replace (S k + i)%nat with (k + S i)%nat by lia.
Qed.

(** X14: iterating over a Grid from [begin()] to [end()] visits the cells
    in row-major coordinate order: if every coordinate of the grid reads a
    value, the loop terminates and yields the values read at (0,0), (1,0),
    ..., (W-1,0), (0,1), ... in this order, the order in which the loop over
    the coordinate range enumerates a grid of these dimensions. *)
Theorem Grid_elements_row_major {T : Type} (hp : heap T) (g : Grid.t)
    (W H : Z) (f : Coord → T) (fuel : nat) :
  Grid_wf hp g W H → 0 ≤ W → 0 ≤ H →
  (∀ c, in_bounds W H c → Grid.get hp g c = Ret (f c)) →
  (Z.to_nat (W * H) < fuel)%nat →
  Grid_elements fuel hp g = Some (f <$> CoordRange.nested_loops W H).
Proof.
  intros Hwf HW HH Hget Hfuel.
  pose proof Hwf as (Hw & Hh & Hmax & l & a & Hd & Hl & Hlen).
  pose proof (length_nested_loops W H HW HH) as Hnl.
  unfold Grid_elements, Grid.begin, Grid.end_, Grid.size.
  rewrite Hw, Hh, Hd. cbn [rd]. int_ok.
  replace (W * H)
    with (Z.of_nat (0 + length (f <$> CoordRange.nested_loops W H)))
    by (rewrite length_fmap; lia).
  apply (range_for_block _ fuel hp l a 0 Hl); [|rewrite length_fmap; lia].
  intros i v Hi. cbn [Nat.add].
  apply list_lookup_fmap_Some in Hi as (c & -> & Hc).
  assert (Hin : in_bounds W H c).
  { apply elem_of_nested_loops, list_elem_of_lookup. eauto. }
  assert (Hidx : cell_index W c = Z.of_nat i).
  { assert (Hf : (cell_index W <$> CoordRange.nested_loops W H) !! i
                 = Some (cell_index W c))
      by (rewrite list_lookup_fmap, Hc; reflexivity).
    unfold CoordRange.nested_loops in Hf.
    rewrite <- (Z2Nat.id H) in Hf at 1 by lia.
    rewrite cell_index_rows in Hf by lia.
    apply lookup_seqZ in Hf. lia. }
  specialize (Hget c Hin).
  destruct (Grid_get_eq hp g W H c Hwf Hin) as (l' & a' & Hd' & Hl' & Hg).
  rewrite Hd in Hd'. injection Hd' as <-.
  rewrite Hg in Hget.
  apply (load_Ret_inv hp l a) in Hget as [_ Hget]; [|assumption].
  fold (cell_index W c) in Hget. now rewrite Hidx, Nat2Z.id in Hget.
Qed.

Lemma Grid_elements_row_major_witness :
  let g := Grid.mk (Ptr 1%positive) (Some 2) (Some 2) in
  let hp : heap Z := {[ 1%positive := [Some 0; Some 1; Some 10; Some 11] ]} in
  Grid_elements 5 hp g
    = Some ((λ c, x c + 10 * y c) <$> CoordRange.nested_loops 2 2).
Proof.
  apply (Grid_elements_row_major
           {[ 1%positive := [Some 0; Some 1; Some 10; Some 11] ]}
           (Grid.mk (Ptr 1%positive) (Some 2) (Some 2)) 2 2
           (λ c, x c + 10 * y c) 5).
  - split_and!; try reflexivity; [pose proof int_bounds; lia|].
    exists 1%positive, [Some 0; Some 1; Some 10; Some 11]. now split_and!.
  - lia.
  - lia.
  - intros [cx cy] [Hx Hy]. cbn [x y] in *.
    assert ((cx = 0 ∨ cx = 1) ∧ (cy = 0 ∨ cy = 1)) as [[-> | ->] [-> | ->]]
      by lia; reflexivity.
  - cbn. lia.
Defined.

(** X15: after constructing a Grid with initial value v and assigning xv at
    a coordinate c of the grid, iterating from [begin()] to [end()] yields
    w*h values: xv at position [x + w*y] of c and v at every other
    position. *)
Theorem Grid_elements_after_set {T : Type} (T_new : option T)
    (hp0 : heap T) (v xv : T) (W H : Z) (c : Coord) (fuel : nat) :
  W * H ≤ int_max → in_bounds W H c →
  (Z.to_nat (W * H) < fuel)%nat →
  ∃ (hp1 hp2 : heap T) g,
    Grid.ctor T_new hp0 v W H = Ret (hp1, g) ∧
    Grid.set hp1 g c xv = Ret hp2 ∧
    Grid_elements fuel hp1 g = Some (replicate (Z.to_nat (W * H)) v) ∧
    Grid_elements fuel hp2 g
      = Some (<[Z.to_nat (cell_index W c) := xv]>
                (replicate (Z.to_nat (W * H)) v)).
Proof.
  intros Hmax Hc Hfuel.
  pose proof (index_in_range W H c Hc) as Hi.
  assert (HWH : 0 ≤ W * H ≤ int_max) by lia.
  pose proof (Grid_wf_ctor T_new hp0 v W H HWH) as Hwf.
  destruct (Grid_set_Ret _ _ W H c xv Hwf Hc)
    as (l & a & [= <-] & Hl & Hset).
  rewrite lookup_insert_eq in Hl. injection Hl as <-.
  eexists _, _, _. split; [apply Grid_ctor_Ret; exact HWH|].
  split; [exact Hset|].
  assert (Hrun : ∀ (hp : heap T) (vs : list T),
            hp !! fresh (dom hp0) = Some (Some <$> vs) →
            length vs = Z.to_nat (W * H) →
            Grid_elements fuel hp
              (Grid.mk (Ptr (fresh (dom hp0))) (Some W) (Some H)) = Some vs).
  { intros hp vs Hl Hlen.
    unfold Grid_elements, Grid.begin, Grid.end_, Grid.size.
    cbn [Grid.w Grid.h Grid.data rd]. int_ok.
    replace (W * H) with (Z.of_nat (0 + length vs)) by lia.
    apply (range_for_block vs fuel hp _ _ 0 Hl); [|lia].
    intros i u Hu. cbn [Nat.add]. now rewrite list_lookup_fmap, Hu. }
  split.
  - apply Hrun; [|apply length_replicate].
    now rewrite lookup_insert_eq, fmap_replicate.
  - apply Hrun; [|now rewrite length_insert, length_replicate].
    rewrite lookup_insert_eq, list_fmap_insert, fmap_replicate.
    reflexivity.
Qed.

Lemma Grid_elements_after_set_witness :
  ∃ (hp1 hp2 : heap Z) g,
    Grid.ctor None ∅ 0 3 2 = Ret (hp1, g) ∧
    Grid.set hp1 g (mkCoord 1 1) 7 = Ret hp2 ∧
    Grid_elements 7 hp1 g = Some (replicate (Z.to_nat (3 * 2)) 0) ∧
    Grid_elements 7 hp2 g
      = Some (<[Z.to_nat (cell_index 3 (mkCoord 1 1)) := 7]>
                (replicate (Z.to_nat (3 * 2)) 0)).
Proof.
  apply (Grid_elements_after_set None ∅ 0 7 3 2 (mkCoord 1 1) 7).
  - pose proof int_bounds. lia.
  - unfold in_bounds. cbn [x y]. lia.
  - cbn. lia.
Defined.

(** ** Ring buffer: the window as a sequence *)

Lemma next_eq K e : 0 ≤ e < K → next K e = (e + 1) `mod` K.
Proof.
  intros He. unfold next. rewrite Z.geb_leb, mod_wrap by lia.
  destruct (Z.leb_spec K (e + 1)), (Z.ltb_spec (e + 1) K); lia.
Qed.

Lemma prev_eq K b : 0 ≤ b < K → prev K b = (b - 1) `mod` K.
Proof.
  intros Hb. unfold prev. destruct (Z.ltb_spec (b - 1) 0).
  - apply (Zmod_unique (b - 1) K (-1)); lia.
  - symmetry. apply Z.mod_small. lia.
Qed.

(** Two offsets below the capacity that lead to the same slot are equal. *)
Lemma slot_inj K b i j :
  0 ≤ i < K → 0 ≤ j < K →
  (b + i) `mod` K = (b + j) `mod` K → i = j.
Proof.
  intros Hi Hj Heq.
  pose proof (Z.div_mod (b + i) K ltac:(lia)) as Ei.
  pose proof (Z.div_mod (b + j) K ltac:(lia)) as Ej.
  rewrite Heq in Ei.
  assert (Hq : i - j = K * ((b + i) `div` K - (b + j) `div` K)) by lia.
  assert ((b + i) `div` K - (b + j) `div` K = 0) by nia. lia.
Qed.

Lemma slot_range K s : 1 ≤ K → 0 ≤ s `mod` K < K.
Proof. intros HK. apply Z.mod_pos_bound. lia. Qed.

Section RingWindow.
Context {T : Type}.
Implicit Types (hp : heap T) (r : RingBuffer.t) (v : T) (vs : list T).
Import RingBuffer.

(** Rebuilding [RingBuffer_holds] for changed cursors over an array in
    which the slots of the window hold the values. *)
Lemma holds_intro hp r vs l (a : list (option T)) :
  RingBuffer_wf hp r → data r = Ptr l → hp !! l = Some a →
  Z.of_nat (length vs) < capacity_ r →
  end_ r = (begin_ r + Z.of_nat (length vs)) `mod` capacity_ r →
  (∀ (i : nat) v, vs !! i = Some v →
     a !! Z.to_nat ((begin_ r + Z.of_nat i) `mod` capacity_ r)
       = Some (Some v)) →
  RingBuffer_holds hp r vs.
Proof.
  intros Hwf Hd Hl Hn He Ha. split_and!; try assumption.
  exists l, a. now split_and!.
Qed.

(** X16: [push_back] appends.  On a buffer whose window holds the values
    vs and that keeps a free slot afterwards (size() + 1 < capacity()),
    [push_back(v)] succeeds and the window then holds vs followed by v. *)
Theorem RingBuffer_push_back_appends hp r vs v :
  RingBuffer_holds hp r vs →
  Z.of_nat (length vs) + 1 < capacity_ r →
  ∃ hp' r', push_back hp r v = Ret (hp', r') ∧
            RingBuffer_holds hp' r' (vs ++ [v]).
Proof.
  intros (Hwf & Hn & He & l & a & Hd & Hl & Ha) Hroom.
  pose proof Hwf as (HK & Hb & He' & l0 & a0 & Hd0 & Hl0 & Hlen).
  rewrite Hd in Hd0. injection Hd0 as <-.
  rewrite Hl in Hl0. injection Hl0 as <-.
  pose proof (push_back_Ret hp r v l a Hwf Hd Hl) as Hpush.
  destruct (step_wf hp r (PushBack v) Hwf) as (hp' & r' & Hs & Hwf' & _).
  cbn [step] in Hs. rewrite Hpush in Hs. injection Hs as <- <-.
  eexists _, _. split; [exact Hpush|].
  apply (holds_intro _ _ _ l (<[Z.to_nat (end_ r) := Some v]> a));
    cbn [set_end data capacity_ begin_ end_]; try assumption.
  - apply lookup_insert_eq.
  - rewrite length_app. cbn [length]. lia.
  - rewrite next_eq by assumption. rewrite He, Z.add_mod_idemp_l by lia.
    rewrite length_app. cbn [length]. f_equal. lia.
  - intros i u Hi.
    apply lookup_app_Some in Hi as [Hi | [Hge Hi]].
    + pose proof (lookup_lt_Some _ _ _ Hi) as Hlt.
      rewrite list_lookup_insert_ne; [now apply Ha|].
      pose proof (slot_range (capacity_ r)
                    (begin_ r + Z.of_nat i) ltac:(lia)).
      intros Heq. rewrite He in Heq. apply Z2Nat.inj in Heq; try lia.
      apply slot_inj in Heq; lia.
    + destruct (i - length vs)%nat as [|k] eqn:Ek; [|discriminate].
      injection Hi as <-. replace i with (length vs) by lia.
      rewrite <- He. apply list_lookup_insert_eq. lia.
Qed.

(** X17: [push_front] prepends.  On a buffer whose window holds the values
    vs and that keeps a free slot afterwards (size() + 1 < capacity()),
    [push_front(v)] succeeds and the window then holds v followed by vs. *)
Theorem RingBuffer_push_front_prepends hp r vs v :
  RingBuffer_holds hp r vs →
  Z.of_nat (length vs) + 1 < capacity_ r →
  ∃ hp' r', push_front hp r v = Ret (hp', r') ∧
            RingBuffer_holds hp' r' (v :: vs).
Proof.
  intros (Hwf & Hn & He & l & a & Hd & Hl & Ha) Hroom.
  pose proof Hwf as (HK & Hb & He' & l0 & a0 & Hd0 & Hl0 & Hlen).
  rewrite Hd in Hd0. injection Hd0 as <-.
  rewrite Hl in Hl0. injection Hl0 as <-.
  pose proof (push_front_Ret hp r v l a Hwf Hd Hl) as Hpush.
  destruct (step_wf hp r (PushFront v) Hwf) as (hp' & r' & Hs & Hwf' & _).
  cbn [step] in Hs. rewrite Hpush in Hs. injection Hs as <- <-.
  pose proof (prev_range _ _ Hb) as Hp.
  eexists _, _. split; [exact Hpush|].
  apply (holds_intro _ _ _ l
           (<[Z.to_nat (prev (capacity_ r) (begin_ r)) := Some v]> a));
    cbn [set_begin data capacity_ begin_ end_]; try assumption.
  - apply lookup_insert_eq.
  - cbn [length]. lia.
  - rewrite prev_eq by assumption. rewrite Z.add_mod_idemp_l by lia.
    rewrite He. cbn [length]. f_equal. lia.
  - intros i u Hi. destruct i as [|j]; cbn in Hi.
    + injection Hi as <-. rewrite Z.add_0_r, Z.mod_small by lia.
      apply list_lookup_insert_eq. lia.
    + pose proof (lookup_lt_Some _ _ _ Hi) as Hlt.
      rewrite prev_eq by assumption. rewrite Z.add_mod_idemp_l by lia.
      replace (begin_ r - 1 + Z.of_nat (S j)) with (begin_ r + Z.of_nat j)
        by lia.
      rewrite list_lookup_insert_ne; [now apply Ha|].
      pose proof (slot_range (capacity_ r)
                    (begin_ r + Z.of_nat j) ltac:(lia)).
      pose proof (slot_range (capacity_ r) (begin_ r - 1) ltac:(lia)).
      intros Heq. apply Z2Nat.inj in Heq; try lia.
      replace ((begin_ r - 1) `mod` capacity_ r)
        with ((begin_ r + (capacity_ r - 1)) `mod` capacity_ r) in Heq.
      * apply slot_inj in Heq; lia.
      * replace (begin_ r + (capacity_ r - 1))
          with (begin_ r - 1 + 1 * capacity_ r) by lia.
        apply Z.mod_add. lia.
Qed.

(** X18: [pop_front] removes the first value.  On a buffer whose window
    holds v followed by vs, [pop_front()] succeeds, leaves the store alone
    and the window then holds vs. *)
Theorem RingBuffer_pop_front_removes_first hp r vs v :
  RingBuffer_holds hp r (v :: vs) →
  ∃ r', pop_front r = Ret r' ∧ RingBuffer_holds hp r' vs.
Proof.
  intros (Hwf & Hn & He & l & a & Hd & Hl & Ha).
  pose proof Hwf as (HK & Hb & He' & _).
  pose proof (pop_front_Ret hp r Hwf) as Hpop.
  destruct (step_wf hp r PopFront Hwf) as (hp' & r' & Hs & Hwf' & _).
  cbn [step] in Hs. rewrite Hpop in Hs. cbn [mbind outcome_bind] in Hs.
  injection Hs as <- <-. cbn [length] in *.
  eexists. split; [exact Hpop|].
  apply (holds_intro _ _ _ l a);
    cbn [set_begin data capacity_ begin_ end_]; try assumption.
  - lia.
  - rewrite next_eq by assumption. rewrite Z.add_mod_idemp_l by lia.
    rewrite He. f_equal. lia.
  - intros i u Hi. rewrite next_eq by assumption.
    rewrite Z.add_mod_idemp_l by lia.
    replace (begin_ r + 1 + Z.of_nat i) with (begin_ r + Z.of_nat (S i))
      by lia.
    now apply Ha.
Qed.

(** X19: [pop_back] removes the last value.  On a buffer whose window holds
    vs followed by v, [pop_back()] succeeds, leaves the store alone and the
    window then holds vs. *)
Theorem RingBuffer_pop_back_removes_last hp r vs v :
  RingBuffer_holds hp r (vs ++ [v]) →
  ∃ r', pop_back r = Ret r' ∧ RingBuffer_holds hp r' vs.
Proof.
  intros (Hwf & Hn & He & l & a & Hd & Hl & Ha).
  pose proof Hwf as (HK & Hb & He' & _).
  pose proof (pop_back_Ret hp r Hwf) as Hpop.
  destruct (step_wf hp r PopBack Hwf) as (hp' & r' & Hs & Hwf' & _).
  cbn [step] in Hs. rewrite Hpop in Hs. cbn [mbind outcome_bind] in Hs.
  injection Hs as <- <-. rewrite length_app in *. cbn [length] in *.
  eexists. split; [exact Hpop|].
  apply (holds_intro _ _ _ l a);
    cbn [set_end data capacity_ begin_ end_]; try assumption.
  - lia.
  - rewrite prev_eq by assumption. rewrite He.
    rewrite Zminus_mod_idemp_l. f_equal. lia.
  - intros i u Hi. apply Ha. now apply lookup_app_l_Some.
Qed.

End RingWindow.

(** A buffer of capacity 4 whose window [5; 6] wraps round the end of the
    array: 5 is in slot 3 and 6 in slot 0. *)
Lemma RingBuffer_holds_example :
  RingBuffer_holds
    ({[ 1%positive := [Some 6; None; None; Some 5] ]} : heap Z)
    (RingBuffer.mk (Ptr 1%positive) 4 3 1) [5; 6].
Proof.
  apply (holds_intro _ _ _ 1%positive [Some 6; None; None; Some 5]);
    cbn [RingBuffer.data RingBuffer.capacity_ RingBuffer.begin_
         RingBuffer.end_ length]; try reflexivity.
  - unfold RingBuffer_wf.
    cbn [RingBuffer.data RingBuffer.capacity_ RingBuffer.begin_
         RingBuffer.end_].
    pose proof int_bounds. split_and!; try lia.
    exists 1%positive, [Some 6; None; None; Some 5]. now split_and!.
  - intros [|[|i]] v; cbn; intros [= <-]; reflexivity.
Defined.

Lemma RingBuffer_push_back_appends_witness :
  ∃ (hp' : heap Z) r',
    RingBuffer.push_back {[ 1%positive := [Some 6; None; None; Some 5] ]}
      (RingBuffer.mk (Ptr 1%positive) 4 3 1) 7 = Ret (hp', r') ∧
    RingBuffer_holds hp' r' ([5; 6] ++ [7]).
Proof.
  apply (RingBuffer_push_back_appends _ _ _ 7 RingBuffer_holds_example).
  cbn. lia.
Defined.

Lemma RingBuffer_push_front_prepends_witness :
  ∃ (hp' : heap Z) r',
    RingBuffer.push_front {[ 1%positive := [Some 6; None; None; Some 5] ]}
      (RingBuffer.mk (Ptr 1%positive) 4 3 1) 4 = Ret (hp', r') ∧
    RingBuffer_holds hp' r' (4 :: [5; 6]).
Proof.
  apply (RingBuffer_push_front_prepends _ _ _ 4 RingBuffer_holds_example).
  cbn. lia.
Defined.

Lemma RingBuffer_pop_front_removes_first_witness :
  ∃ r', RingBuffer.pop_front (RingBuffer.mk (Ptr 1%positive) 4 3 1) = Ret r' ∧
        RingBuffer_holds
          ({[ 1%positive := [Some 6; None; None; Some 5] ]} : heap Z) r' [6].
Proof.
  apply (RingBuffer_pop_front_removes_first _ _ [6] 5
           RingBuffer_holds_example).
Defined.

Lemma RingBuffer_pop_back_removes_last_witness :
  ∃ r', RingBuffer.pop_back (RingBuffer.mk (Ptr 1%positive) 4 3 1) = Ret r' ∧
        RingBuffer_holds
          ({[ 1%positive := [Some 6; None; None; Some 5] ]} : heap Z) r' [5].
Proof.
  apply (RingBuffer_pop_back_removes_last _ _ [5] 6
           RingBuffer_holds_example).
Defined.

(** X20: the observers read the window.  On a buffer whose window holds the
    values vs: [size()] is the number of values, [empty()] is true exactly
    when there is none, [front()] is the first and [back()] the last value,
    and [at(i)] is the i-th value whenever the sum [begin_ + i] is
    representable. *)
Theorem RingBuffer_observers {T : Type} (hp : heap T) (r : RingBuffer.t)
    (vs : list T) :
  RingBuffer_holds hp r vs →
  RingBuffer.size r = Ret (Z.of_nat (length vs)) ∧
  (RingBuffer.empty r = true ↔ vs = []) ∧
  (∀ v, head vs = Some v → RingBuffer.front hp r = Ret v) ∧
  (∀ v, last vs = Some v → RingBuffer.back hp r = Ret v) ∧
  (∀ (i : nat) v, vs !! i = Some v →
     RingBuffer.begin_ r + Z.of_nat i ≤ int_max →
     RingBuffer.at_ hp r (Z.of_nat i) = Ret v).
Proof.
  intros (Hwf & Hn & He & l & a & Hd & Hl & Ha).
  pose proof Hwf as (HK & Hb & He' & _).
  assert (Hwrap : RingBuffer.end_ r
            = if RingBuffer.begin_ r + Z.of_nat (length vs)
                 <? RingBuffer.capacity_ r
              then RingBuffer.begin_ r + Z.of_nat (length vs)
              else RingBuffer.begin_ r + Z.of_nat (length vs)
                   - RingBuffer.capacity_ r)
    by (rewrite He; apply mod_wrap; lia).
  split_and!.
  - rewrite (size_Ret hp r Hwf). f_equal.
    destruct (Z.ltb_spec (RingBuffer.begin_ r + Z.of_nat (length vs))
                (RingBuffer.capacity_ r)),
      (Z.ltb_spec (RingBuffer.end_ r) (RingBuffer.begin_ r)); lia.
  - unfold RingBuffer.empty.
    destruct (Z.eqb_spec (RingBuffer.begin_ r) (RingBuffer.end_ r)) as [E|E];
      (split; [intros Ht | intros ->]); try discriminate; try reflexivity.
    + destruct vs; [reflexivity|]. cbn [length] in *.
      destruct (Z.ltb_spec
                  (RingBuffer.begin_ r + Z.of_nat (S (length vs)))
                  (RingBuffer.capacity_ r)); lia.
    + cbn [length] in Hwrap.
      destruct (Z.ltb_spec (RingBuffer.begin_ r + Z.of_nat 0)
                  (RingBuffer.capacity_ r)); lia.
  - intros v Hv. rewrite head_lookup in Hv. apply Ha in Hv.
    rewrite Z.add_0_r, Z.mod_small in Hv by lia.
    unfold RingBuffer.front. rewrite Hd.
    eapply load_Ret; [exact Hl | lia | exact Hv].
  - intros v Hv. rewrite last_lookup in Hv.
    assert (Hpos : length vs ≠ 0%nat)
      by (destruct vs; [discriminate | cbn; lia]).
    apply Ha in Hv.
    replace (RingBuffer.begin_ r + Z.of_nat (Nat.pred (length vs)))
      with (RingBuffer.begin_ r + Z.of_nat (length vs) - 1) in Hv by lia.
    rewrite <- Zminus_mod_idemp_l, <- He, <- prev_eq in Hv by assumption.
    pose proof (prev_range _ _ He') as Hp. unfold prev in Hv, Hp.
    unfold RingBuffer.back, RingBuffer.capacity. rewrite Hd.
    destruct (Z.eqb_spec (RingBuffer.end_ r) 0) as [E|E]; int_ok.
    + rewrite E in Hv. cbn in Hv.
      eapply load_Ret; [exact Hl | lia | exact Hv].
    + destruct (Z.ltb_spec (RingBuffer.end_ r - 1) 0); [lia|].
      eapply load_Ret; [exact Hl | lia | exact Hv].
  - intros i v Hv Hmax.
    eapply at_Ret; [exact Hwf | exact Hd | exact Hl | lia | exact Hmax |].
    now apply Ha.
Qed.

Lemma RingBuffer_observers_witness :
  let hp : heap Z := {[ 1%positive := [Some 6; None; None; Some 5] ]} in
  let r := RingBuffer.mk (Ptr 1%positive) 4 3 1 in
  RingBuffer.size r = Ret (Z.of_nat (length [5; 6])) ∧
  (RingBuffer.empty r = true ↔ [5; 6] = []) ∧
  (∀ v, head [5; 6] = Some v → RingBuffer.front hp r = Ret v) ∧
  (∀ v, last [5; 6] = Some v → RingBuffer.back hp r = Ret v) ∧
  (∀ (i : nat) v, [5; 6] !! i = Some v →
     RingBuffer.begin_ r + Z.of_nat i ≤ int_max →
     RingBuffer.at_ hp r (Z.of_nat i) = Ret v).
Proof.
  apply (RingBuffer_observers _ _ _ RingBuffer_holds_example).
Defined.

Lemma prev_next K i : 0 ≤ i < K → prev K (next K i) = i.
Proof.
  intros Hi. unfold next, prev. rewrite Z.geb_leb.
  destruct (Z.leb_spec K (i + 1));
    match goal with |- context [?u <? ?v] => destruct (Z.ltb_spec u v) end;
    lia.
Qed.

(** X21: on a well-formed buffer, [push_back(v)] followed by [pop_back()]
    succeeds and gives back the same cursors, hence the same [size()], and
    [at(i)] for every 0 <= i < size() observes what it observed before. *)
Theorem RingBuffer_push_back_pop_back {T : Type} (hp : heap T)
    (r : RingBuffer.t) (v : T) (n : Z) :
  RingBuffer_wf hp r →
  RingBuffer.size r = Ret n →
  ∃ (hp1 : heap T) r1 r2,
    RingBuffer.push_back hp r v = Ret (hp1, r1) ∧
    RingBuffer.pop_back r1 = Ret r2 ∧
    RingBuffer_wf hp1 r2 ∧
    r2 = r ∧
    (∀ i, 0 ≤ i < n → RingBuffer.at_ hp1 r2 i = RingBuffer.at_ hp r i).
Proof.
  intros Hwf Hsize.
  pose proof Hwf as (HK & Hb & He & l & a & Hd & Hl & Hlen).
  pose proof (push_back_Ret hp r v l a Hwf Hd Hl) as Hpush.
  destruct (step_wf hp r (RingBuffer.PushBack v) Hwf)
    as (hp1 & r1 & Hstep & Hwf1 & _).
  cbn [RingBuffer.step] in Hstep. rewrite Hpush in Hstep.
  injection Hstep as <- <-.
  pose proof (pop_back_Ret _ _ Hwf1) as Hpop.
  destruct (step_wf _ _ RingBuffer.PopBack Hwf1)
    as (hp2 & r2 & Hstep & Hwf2 & _).
  cbn [RingBuffer.step] in Hstep. rewrite Hpop in Hstep.
  cbn [mbind outcome_bind] in Hstep. injection Hstep as <- <-.
  destruct r as [d K b e].
  unfold RingBuffer.capacity, RingBuffer.set_end in *.
  cbn [RingBuffer.capacity_ RingBuffer.begin_ RingBuffer.data
       RingBuffer.end_] in *.
  rewrite prev_next in Hpop, Hwf2 by assumption.
  eexists _, _, _.
  split; [exact Hpush|]. split; [exact Hpop|].
  split; [exact Hwf2|]. split; [reflexivity|].
  intros i Hi. rewrite (size_Ret hp _ Hwf) in Hsize.
  cbn [RingBuffer.begin_ RingBuffer.end_ RingBuffer.capacity_] in Hsize.
  injection Hsize as Hsize.
  unfold RingBuffer.at_, int_add, chk.
  cbn [RingBuffer.begin_ RingBuffer.capacity_ RingBuffer.data].
  destruct (fits (b + i)) eqn:Hfit; [|reflexivity].
  apply fits_inv in Hfit. cbn [mbind outcome_bind].
  rewrite int_rem_Ret by (assumption || lia). cbn [mbind outcome_bind].
  rewrite Hd.
  eapply load_ext; [apply lookup_insert_eq | exact Hl |].
  apply list_lookup_insert_ne.
  assert (0 ≤ (b + i) `mod` K) by (apply Z.mod_pos_bound; lia).
  enough ((b + i) `mod` K ≠ e) by lia.
  rewrite mod_wrap by (destruct (Z.ltb_spec e b); lia).
  destruct (Z.ltb_spec e b), (Z.ltb_spec (b + i) K); lia.
Qed.

Lemma RingBuffer_push_back_pop_back_witness :
  ∃ (hp1 : heap Z) r1 r2,
    RingBuffer.push_back {[ 1%positive := [Some 6; None; None; Some 5] ]}
      (RingBuffer.mk (Ptr 1%positive) 4 3 1) 9 = Ret (hp1, r1) ∧
    RingBuffer.pop_back r1 = Ret r2 ∧
    RingBuffer_wf hp1 r2 ∧
    r2 = RingBuffer.mk (Ptr 1%positive) 4 3 1 ∧
    (∀ i, 0 ≤ i < 2 →
       RingBuffer.at_ hp1 r2 i
       = RingBuffer.at_ {[ 1%positive := [Some 6; None; None; Some 5] ]}
           (RingBuffer.mk (Ptr 1%positive) 4 3 1) i).
Proof.
  apply (RingBuffer_push_back_pop_back
           {[ 1%positive := [Some 6; None; None; Some 5] ]}
           (RingBuffer.mk (Ptr 1%positive) 4 3 1) 9 2).
  - exact (proj1 RingBuffer_holds_example).
  - reflexivity.
Defined.

(** X22: a push on a buffer that holds capacity() - 1 values loses them
    all.  [push_back(v)] and [push_front(v)] both succeed without any
    error, and afterwards the cursors coincide: the window is empty,
    [size()] is 0 and [empty()] is true. *)
Theorem RingBuffer_push_when_full_empties {T : Type} (hp : heap T)
    (r : RingBuffer.t) (vs : list T) (v : T) :
  RingBuffer_holds hp r vs →
  Z.of_nat (length vs) = RingBuffer.capacity r - 1 →
  (∃ (hp' : heap T) r', RingBuffer.push_back hp r v = Ret (hp', r') ∧
     RingBuffer_holds hp' r' [] ∧
     RingBuffer.size r' = Ret 0 ∧ RingBuffer.empty r' = true) ∧
  (∃ (hp' : heap T) r', RingBuffer.push_front hp r v = Ret (hp', r') ∧
     RingBuffer_holds hp' r' [] ∧
     RingBuffer.size r' = Ret 0 ∧ RingBuffer.empty r' = true).
Proof.
  intros (Hwf & Hn & He & l & a & Hd & Hl & Ha) Hfull.
  unfold RingBuffer.capacity in Hfull.
  pose proof Hwf as (HK & Hb & He' & _).
  assert (Hcur : ∀ (hp' : heap T) r',
            RingBuffer_wf hp' r' →
            RingBuffer.begin_ r' = RingBuffer.end_ r' →
            RingBuffer_holds hp' r' [] ∧
            RingBuffer.size r' = Ret 0 ∧ RingBuffer.empty r' = true).
  { intros hp' r' Hwf' Heq.
    pose proof Hwf' as (HK' & Hb' & _ & l' & a' & Hd' & Hl' & _).
    split_and!.
    - apply (holds_intro _ _ _ l' a'); try assumption; cbn [length].
      + lia.
      + now rewrite Z.add_0_r, Z.mod_small by lia.
      + intros i u Hi. discriminate.
    - rewrite (size_Ret _ _ Hwf'), Heq.
      destruct (Z.ltb_spec (RingBuffer.end_ r') (RingBuffer.end_ r'));
        f_equal; lia.
    - unfold RingBuffer.empty. now apply Z.eqb_eq. }
  split.
  - pose proof (push_back_Ret hp r v l a Hwf Hd Hl) as Hpush.
    destruct (step_wf hp r (RingBuffer.PushBack v) Hwf)
      as (hp' & r' & Hs & Hwf' & _).
    cbn [RingBuffer.step] in Hs. rewrite Hpush in Hs.
    injection Hs as <- <-.
    eexists _, _. split; [exact Hpush|]. apply Hcur; [exact Hwf'|].
    cbn [RingBuffer.set_end RingBuffer.begin_ RingBuffer.end_].
    rewrite next_eq by assumption. rewrite He, Z.add_mod_idemp_l by lia.
    replace (RingBuffer.begin_ r + Z.of_nat (length vs) + 1)
      with (RingBuffer.begin_ r + 1 * RingBuffer.capacity_ r) by lia.
    rewrite Z.mod_add by lia. symmetry. apply Z.mod_small. lia.
  - pose proof (push_front_Ret hp r v l a Hwf Hd Hl) as Hpush.
    destruct (step_wf hp r (RingBuffer.PushFront v) Hwf)
      as (hp' & r' & Hs & Hwf' & _).
    cbn [RingBuffer.step] in Hs. rewrite Hpush in Hs.
    injection Hs as <- <-.
    eexists _, _. split; [exact Hpush|]. apply Hcur; [exact Hwf'|].
    cbn [RingBuffer.set_begin RingBuffer.begin_ RingBuffer.end_].
    rewrite prev_eq by assumption. rewrite He.
    replace (RingBuffer.begin_ r + Z.of_nat (length vs))
      with (RingBuffer.begin_ r - 1 + 1 * RingBuffer.capacity_ r) by lia.
    now rewrite Z.mod_add by lia.
Qed.

(** A buffer of capacity 3 that holds two values: it is full. *)
Lemma RingBuffer_holds_full_example :
  RingBuffer_holds
    ({[ 1%positive := [Some 6; None; Some 5] ]} : heap Z)
    (RingBuffer.mk (Ptr 1%positive) 3 2 1) [5; 6].
Proof.
  apply (holds_intro _ _ _ 1%positive [Some 6; None; Some 5]);
    cbn [RingBuffer.data RingBuffer.capacity_ RingBuffer.begin_
         RingBuffer.end_ length]; try reflexivity.
  - unfold RingBuffer_wf.
    cbn [RingBuffer.data RingBuffer.capacity_ RingBuffer.begin_
         RingBuffer.end_].
    pose proof int_bounds. split_and!; try lia.
    exists 1%positive, [Some 6; None; Some 5]. now split_and!.
  - intros [|[|i]] v; cbn; intros [= <-]; reflexivity.
Defined.

Lemma RingBuffer_push_when_full_empties_witness :
  let hp : heap Z := {[ 1%positive := [Some 6; None; Some 5] ]} in
  let r := RingBuffer.mk (Ptr 1%positive) 3 2 1 in
  (∃ (hp' : heap Z) r', RingBuffer.push_back hp r 8 = Ret (hp', r') ∧
     RingBuffer_holds hp' r' [] ∧
     RingBuffer.size r' = Ret 0 ∧ RingBuffer.empty r' = true) ∧
  (∃ (hp' : heap Z) r', RingBuffer.push_front hp r 8 = Ret (hp', r') ∧
     RingBuffer_holds hp' r' [] ∧
     RingBuffer.size r' = Ret 0 ∧ RingBuffer.empty r' = true).
Proof.
  apply (RingBuffer_push_when_full_empties _ _ _ 8
           RingBuffer_holds_full_example).
  reflexivity.
Defined.

(** X23: a pop on an empty buffer is not detected.  On a buffer whose
    window is empty, [pop_front()] and [pop_back()] both succeed and leave a
    buffer that reports [size() == capacity() - 1]. *)
Theorem RingBuffer_pop_when_empty {T : Type} (hp : heap T)
    (r : RingBuffer.t) :
  RingBuffer_holds hp r [] →
  (∃ r', RingBuffer.pop_front r = Ret r' ∧ RingBuffer_wf hp r' ∧
         RingBuffer.size r' = Ret (RingBuffer.capacity r - 1)) ∧
  (∃ r', RingBuffer.pop_back r = Ret r' ∧ RingBuffer_wf hp r' ∧
         RingBuffer.size r' = Ret (RingBuffer.capacity r - 1)).
Proof.
  intros (Hwf & _ & He & _). cbn [length] in He.
  pose proof Hwf as (HK & Hb & He' & _).
  rewrite Z.add_0_r, Z.mod_small in He by lia.
  unfold RingBuffer.capacity. split.
  - pose proof (pop_front_Ret hp r Hwf) as Hpop.
    destruct (step_wf hp r RingBuffer.PopFront Hwf)
      as (hp' & r' & Hs & Hwf' & _).
    cbn [RingBuffer.step] in Hs. rewrite Hpop in Hs.
    cbn [mbind outcome_bind] in Hs. injection Hs as <- <-.
    eexists. split; [exact Hpop|]. split; [exact Hwf'|].
    rewrite (size_Ret _ _ Hwf').
    cbn [RingBuffer.set_begin RingBuffer.begin_ RingBuffer.end_
         RingBuffer.capacity_].
    unfold next. rewrite Z.geb_leb, He.
    destruct (Z.leb_spec (RingBuffer.capacity_ r) (RingBuffer.begin_ r + 1));
      match goal with |- context [?u <? ?v] => destruct (Z.ltb_spec u v) end;
      f_equal; lia.
  - pose proof (pop_back_Ret hp r Hwf) as Hpop.
    destruct (step_wf hp r RingBuffer.PopBack Hwf)
      as (hp' & r' & Hs & Hwf' & _).
    cbn [RingBuffer.step] in Hs. rewrite Hpop in Hs.
    cbn [mbind outcome_bind] in Hs. injection Hs as <- <-.
    eexists. split; [exact Hpop|]. split; [exact Hwf'|].
    rewrite (size_Ret _ _ Hwf').
    cbn [RingBuffer.set_end RingBuffer.begin_ RingBuffer.end_
         RingBuffer.capacity_].
    unfold prev. rewrite He.
    destruct (Z.ltb_spec (RingBuffer.begin_ r - 1) 0);
      match goal with |- context [?u <? ?v] => destruct (Z.ltb_spec u v) end;
      f_equal; lia.
Qed.

(** An empty buffer of capacity 3. *)
Lemma RingBuffer_holds_empty_example :
  RingBuffer_holds
    ({[ 1%positive := [None; None; None] ]} : heap Z)
    (RingBuffer.mk (Ptr 1%positive) 3 0 0) [].
Proof.
  apply (holds_intro _ _ _ 1%positive [None; None; None]);
    cbn [RingBuffer.data RingBuffer.capacity_ RingBuffer.begin_
         RingBuffer.end_ length]; try reflexivity.
  - unfold RingBuffer_wf.
    cbn [RingBuffer.data RingBuffer.capacity_ RingBuffer.begin_
         RingBuffer.end_].
    pose proof int_bounds. split_and!; try lia.
    exists 1%positive, [None; None; None]. now split_and!.
  - intros i v Hi. discriminate.
Defined.

Lemma RingBuffer_pop_when_empty_witness :
  let hp : heap Z := {[ 1%positive := [None; None; None] ]} in
  let r := RingBuffer.mk (Ptr 1%positive) 3 0 0 in
  (∃ r', RingBuffer.pop_front r = Ret r' ∧ RingBuffer_wf hp r' ∧
         RingBuffer.size r' = Ret (RingBuffer.capacity r - 1)) ∧
  (∃ r', RingBuffer.pop_back r = Ret r' ∧ RingBuffer_wf hp r' ∧
         RingBuffer.size r' = Ret (RingBuffer.capacity r - 1)).
Proof.
  apply (RingBuffer_pop_when_empty _ _ RingBuffer_holds_empty_example).
Defined.

(** X24: a freshly constructed buffer of capacity K >= 1 is empty: its
    window holds no value, [size()] is 0, [empty()] is true and
    [capacity()] is K; a negative capacity makes the constructor throw. *)
Theorem RingBuffer_ctor_empty {T : Type} (T_new : option T) (hp0 : heap T)
    (K : Z) :
  1 ≤ K ≤ int_max →
  (∃ (hp1 : heap T) r,
     RingBuffer.ctor T_new hp0 K = Ret (hp1, r) ∧
     RingBuffer_holds hp1 r [] ∧
     RingBuffer.size r = Ret 0 ∧ RingBuffer.empty r = true ∧
     RingBuffer.capacity r = K) ∧
  RingBuffer.ctor T_new hp0 (- K) = Throw "bad_array_new_length".
Proof.
  intros HK. split.
  - eexists _, _. split; [apply RingBuffer_ctor_Ret; lia|].
    pose proof (RingBuffer_wf_ctor T_new hp0 K HK) as Hwf.
    split_and!; try reflexivity.
    eapply holds_intro;
      [exact Hwf | reflexivity | apply lookup_insert_eq | cbn; lia
      | cbn [RingBuffer.begin_ RingBuffer.end_ RingBuffer.capacity_ length];
        now rewrite Z.mod_small by lia
      | intros i u Hi; discriminate].
  - unfold RingBuffer.ctor. now rewrite new_array_Throw by lia.
Qed.

Lemma RingBuffer_ctor_empty_witness :
  (∃ (hp1 : heap Z) r,
     RingBuffer.ctor None ∅ 4 = Ret (hp1, r) ∧
     RingBuffer_holds hp1 r [] ∧
     RingBuffer.size r = Ret 0 ∧ RingBuffer.empty r = true ∧
     RingBuffer.capacity r = 4) ∧
  RingBuffer.ctor None (∅ : heap Z) (- 4) = Throw "bad_array_new_length".
Proof.
  apply (RingBuffer_ctor_empty None ∅ 4). pose proof int_bounds. lia.
Defined.

(** X25: a buffer of capacity 0 can be constructed, but it cannot hold
    anything: every [push_back], [push_front] and [at] on it is undefined
    (a write outside the empty array, a division by zero). *)
Theorem RingBuffer_zero_capacity {T : Type} (T_new : option T)
    (hp0 : heap T) :
  ∃ (hp1 : heap T) r,
    RingBuffer.ctor T_new hp0 0 = Ret (hp1, r) ∧
    RingBuffer.size r = Ret 0 ∧
    (∀ v, RingBuffer.push_back hp1 r v = Undef) ∧
    (∀ v, RingBuffer.push_front hp1 r v = Undef) ∧
    (∀ i, RingBuffer.at_ hp1 r i = Undef).
Proof.
  eexists _, _. split; [apply RingBuffer_ctor_Ret; lia|].
  split_and!; try reflexivity.
  - intros v. unfold RingBuffer.push_back, store.
    cbn [RingBuffer.data RingBuffer.end_]. now rewrite lookup_insert_eq.
  - intros v. unfold RingBuffer.push_front, store.
    cbn [RingBuffer.data RingBuffer.begin_ RingBuffer.capacity
         RingBuffer.capacity_].
    cbn. now rewrite lookup_insert_eq.
  - intros i. unfold RingBuffer.at_, int_add, chk, int_rem.
    cbn [RingBuffer.begin_ RingBuffer.capacity_].
    now destruct (fits (0 + i)).
Qed.

Section RingFrame.
Context {T : Type}.
Implicit Types (hp : heap T) (r q : RingBuffer.t).
Import RingBuffer.

(** A mutator of a buffer writes to the array of this buffer only. *)
Lemma step_frame hp r (o : op T) hp' r' l :
  RingBuffer_wf hp r → data r = Ptr l →
  step hp r o = Ret (hp', r') →
  ∀ l', l' ≠ l → hp' !! l' = hp !! l'.
Proof.
  intros Hwf Hd Hs l' Hne.
  pose proof Hwf as (_ & _ & _ & l0 & a & Hd0 & Hl & _).
  rewrite Hd in Hd0. injection Hd0 as <-.
  destruct o as [v|v| |]; cbn [step] in Hs.
  - rewrite (push_front_Ret hp r v l a Hwf Hd Hl) in Hs.
    injection Hs as <- <-. now rewrite lookup_insert_ne.
  - rewrite (push_back_Ret hp r v l a Hwf Hd Hl) in Hs.
    injection Hs as <- <-. now rewrite lookup_insert_ne.
  - rewrite (pop_front_Ret hp r Hwf) in Hs.
    cbn [mbind outcome_bind] in Hs. now injection Hs as <- <-.
  - rewrite (pop_back_Ret hp r Hwf) in Hs.
    cbn [mbind outcome_bind] in Hs. now injection Hs as <- <-.
Qed.

Lemma holds_frame hp hp' q vs l :
  RingBuffer_holds hp q vs → data q = Ptr l →
  hp' !! l = hp !! l → RingBuffer_holds hp' q vs.
Proof.
  intros (Hwf & Hn & He & l0 & a & Hd0 & Hl & Ha) Hd Heq.
  rewrite Hd in Hd0. injection Hd0 as <-.
  destruct Hwf as (HK & Hb & He' & l1 & a1 & Hd1 & Hl1 & Hlen).
  rewrite Hd in Hd1. injection Hd1 as <-.
  split.
  { split; [assumption|]. split; [assumption|]. split; [assumption|].
    exists l, a1. split_and!; try assumption. congruence. }
  split; [assumption|]. split; [assumption|].
  exists l, a. split_and!; try assumption. congruence.
Qed.

Lemma run_frame (ops : list (op T)) : ∀ hp r q vs,
  RingBuffer_wf hp r → RingBuffer_holds hp q vs → data r ≠ data q →
  ∃ hp' r', run hp r ops = Ret (hp', r') ∧ RingBuffer_wf hp' r' ∧
            data r' = data r ∧ RingBuffer_holds hp' q vs.
Proof.
  induction ops as [|o ops IH]; intros hp r q vs Hwf Hq Hne.
  - exists hp, r. now split_and!.
  - destruct (step_wf hp r o Hwf) as (hp1 & r1 & Hs & Hwf1 & Hd1 & _).
    pose proof Hwf as (_ & _ & _ & l & _ & Hd & _).
    pose proof Hq as (_ & _ & _ & lq & _ & Hdq & _).
    assert (Hq1 : RingBuffer_holds hp1 q vs).
    { apply (holds_frame hp hp1 q vs lq Hq Hdq).
      apply (step_frame hp r o hp1 r1 l Hwf Hd Hs). congruence. }
    destruct (IH hp1 r1 q vs Hwf1 Hq1 ltac:(congruence))
      as (hp2 & r2 & Hr & Hwf2 & Hd2 & Hq2).
    exists hp2, r2. cbn [run]. rewrite Hs. cbn [mbind outcome_bind fst snd].
    split_and!; try assumption. congruence.
Qed.

End RingFrame.

(** X26: buffers that were constructed separately do not interfere.  A
    buffer constructed while another buffer q is live gets an array of its
    own, and whatever pushes and pops are then run on the new buffer, they
    succeed and the window of q still holds the same values. *)
Theorem RingBuffer_separate_buffers_independent {T : Type}
    (T_new : option T) (hp : heap T) (q : RingBuffer.t) (vs : list T)
    (K : Z) :
  RingBuffer_holds hp q vs →
  1 ≤ K ≤ int_max →
  ∃ (hp1 : heap T) r,
    RingBuffer.ctor T_new hp K = Ret (hp1, r) ∧
    RingBuffer.data r ≠ RingBuffer.data q ∧
    RingBuffer_holds hp1 q vs ∧
    ∀ ops : list (RingBuffer.op T),
      ∃ (hp2 : heap T) r',
        RingBuffer.run hp1 r ops = Ret (hp2, r') ∧
        RingBuffer_wf hp2 r' ∧
        RingBuffer_holds hp2 q vs.
Proof.
  intros Hq HK.
  pose proof Hq as (_ & _ & _ & lq & aq & Hdq & Hlq & _).
  pose proof (fresh_block hp) as Hfresh.
  assert (Hne : fresh (dom hp) ≠ lq) by congruence.
  pose proof (RingBuffer_wf_ctor T_new hp K HK) as Hwf.
  assert (Hq1 : RingBuffer_holds
            (<[fresh (dom hp) := replicate (Z.to_nat K) T_new]> hp) q vs).
  { apply (holds_frame hp _ q vs lq Hq Hdq). now rewrite lookup_insert_ne. }
  eexists _, _. split; [apply RingBuffer_ctor_Ret; lia|].
  split_and!.
  - cbn [RingBuffer.data]. rewrite Hdq. congruence.
  - exact Hq1.
  - intros ops.
    destruct (run_frame ops _ _ q vs Hwf Hq1)
      as (hp2 & r' & Hr & Hwf2 & _ & Hq2).
    + cbn [RingBuffer.data]. rewrite Hdq. congruence.
    + exists hp2, r'. now split_and!.
Qed.

Lemma RingBuffer_separate_buffers_independent_witness :
  let hp : heap Z := {[ 1%positive := [Some 6; None; None; Some 5] ]} in
  let q := RingBuffer.mk (Ptr 1%positive) 4 3 1 in
  ∃ (hp1 : heap Z) r,
    RingBuffer.ctor None hp 2 = Ret (hp1, r) ∧
    RingBuffer.data r ≠ RingBuffer.data q ∧
    RingBuffer_holds hp1 q [5; 6] ∧
    ∀ ops : list (RingBuffer.op Z),
      ∃ (hp2 : heap Z) r',
        RingBuffer.run hp1 r ops = Ret (hp2, r') ∧
        RingBuffer_wf hp2 r' ∧
        RingBuffer_holds hp2 q [5; 6].
Proof.
  apply (RingBuffer_separate_buffers_independent None _ _ _ 2
           RingBuffer_holds_example).
  pose proof int_bounds. lia.
Defined.

(** ** Statistics utilities *)

Section StatisticsFacts.
Context {T D : Type}.
Variables (to_double : T → D) (dadd dsub dmul : D → D → D).
Variables (d_of_size : Z → D) (d_one d_quarter : D).
Variable size_bits : Z.
Variable sort : list T → list T.

Local Abbreviation body := (quantiles_body to_double dadd dsub dmul
                              d_of_size d_one d_quarter size_bits).
Local Abbreviation spec := (quantile_of to_double dadd dsub dmul d_of_size
                              d_one d_quarter).

Lemma quantiles_body_Ret (xs s : list T) (i : Z) :
  length s = length xs → xs ≠ [] →
  4 * Z.of_nat (length xs) ≤ 2 ^ size_bits →
  0 ≤ i ≤ 4 →
  ∃ q, body xs s i = Ret q ∧ spec s (Z.of_nat (length xs)) i q.
Proof.
  intros Hlen Hne Hsize Hi.
  assert (Hn : 1 ≤ Z.of_nat (length xs)) by (destruct xs; [done | cbn; lia]).
  set (n := Z.of_nat (length xs)) in *.
  unfold quantiles_body, quantile_of, size_wrap. cbv zeta.
  rewrite (Z.mod_small (n - 1)) by lia.
  rewrite (Z.mod_small (i * (n - 1))) by nia.
  set (j := i * (n - 1)).
  assert (Hj : 0 ≤ j ≤ 4 * (n - 1)) by (unfold j; nia).
  pose proof (Z.div_mod j 4 ltac:(lia)) as Hdm.
  pose proof (Z.mod_pos_bound j 4 ltac:(lia)) as Hm.
  assert (Hq : 0 ≤ j `div` 4) by (apply Z.div_pos; lia).
  destruct (Z.eqb_spec (j `mod` 4) 0) as [E|E].
  - destruct (lookup_lt_is_Some_2 s (Z.to_nat (j `div` 4)) ltac:(lia))
      as [a Ha].
    exists (to_double a). unfold vec_at. rewrite Ha. split; [reflexivity|].
    exists a. now split.
  - destruct (lookup_lt_is_Some_2 s (Z.to_nat (j `div` 4)) ltac:(lia))
      as [a Ha].
    destruct (lookup_lt_is_Some_2 s (S (Z.to_nat (j `div` 4))) ltac:(lia))
      as [b Hb].
    rewrite (Z.mod_small (j + 3)) by lia.
    assert (Hup : (j + 3) `div` 4 = j `div` 4 + 1).
    { symmetry. apply (Z.div_unique (j + 3) 4 _ (j `mod` 4 - 1)); lia. }
    rewrite Hup. unfold vec_at. rewrite Ha.
    replace (Z.to_nat (j `div` 4 + 1)) with (S (Z.to_nat (j `div` 4))) by lia.
    rewrite Hb. cbn [mbind outcome_bind].
    eexists. split; [reflexivity|]. exists a. split; [reflexivity|].
    exists b. now split.
Qed.



(** X28: on an empty vector [quantiles] has undefined behaviour: in the
    first round [xs.size() - 1] wraps round, j is 0 and [sorted[0]] is read
    from the empty sorted vector. *)
Theorem quantiles_empty_undefined :
  (∀ l, length (sort l) = length l) →
  quantiles to_double dadd dsub dmul d_of_size d_one d_quarter size_bits
    sort [] = Undef.
Proof.
  intros Hsort. unfold quantiles. cbn [quantiles_loop].
  unfold quantiles_body, size_wrap.
  change (0 * _) with 0. rewrite Zmod_0_l.
  change (0 `mod` 4 =? 0) with true. cbv iota.
  rewrite (nil_length_inv (sort [])) by apply Hsort. reflexivity.
Qed.

End StatisticsFacts.

Lemma merge_sort_length (l : list Z) : length (merge_sort Z.le l) = length l.
Proof. apply Permutation_length, merge_sort_Permutation. Qed.


Lemma quantiles_empty_undefined_witness :
  quantiles (λ z : Z, z) Z.add Z.sub Z.mul (λ z, z) 4 1 64
    (merge_sort Z.le) [] = Undef.
Proof.
  apply (quantiles_empty_undefined (λ z : Z, z) Z.add Z.sub Z.mul (λ z, z)
           4 1 64 (merge_sort Z.le)).
  exact merge_sort_length.
Defined.

Lemma string_app_assoc (s1 s2 s3 : string) :
  (s1 +:+ s2) +:+ s3 = s1 +:+ s2 +:+ s3.
Proof.
  induction s1 as [|c s1 IH]; [reflexivity|].
  change (String c ((s1 +:+ s2) +:+ s3) = String c (s1 +:+ s2 +:+ s3)).
  now rewrite IH.
Qed.

Lemma string_app_nil_r (s : string) : s +:+ "" = s.
Proof.
  induction s as [|c s IH]; [reflexivity|].
  change (String c (s +:+ "") = String c s). now rewrite IH.
Qed.

Lemma print_loop_rest {D : Type} (show : D → string) (xs : list D) :
  ∀ out, print_loop show out false xs
         = out +:+ (if decide (xs = []) then ""
                    else ", " +:+ join ", " (show <$> xs)).
Proof.
  induction xs as [|e xs IH]; intros out.
  - cbn [print_loop]. rewrite decide_True by reflexivity.
    now rewrite string_app_nil_r.
  - cbn [print_loop negb]. rewrite IH.
    rewrite (decide_False (P := e :: xs = [])) by discriminate.
    destruct xs as [|e' xs].
    + rewrite decide_True by reflexivity. cbn [fmap list_fmap join].
      now rewrite string_app_nil_r, !string_app_assoc.
    + rewrite decide_False by discriminate.
      cbn [fmap list_fmap join]. now rewrite !string_app_assoc.
Qed.

(** X29: [operator <<] for a vector writes, behind what the stream already
    holds, an opening bracket, the elements in order with ", " between
    neighbours and nowhere else, and a closing bracket; an empty vector
    gives "[]". *)
Theorem print_vector_joined {D : Type} (show : D → string) (out : string)
    (xs : list D) :
  print_vector show out xs
    = out +:+ "[" +:+ join ", " (show <$> xs) +:+ "]".
Proof.
  unfold print_vector. destruct xs as [|e xs].
  - cbn [print_loop fmap list_fmap join]. now rewrite !string_app_assoc.
  - cbn [print_loop negb]. rewrite print_loop_rest.
    destruct xs as [|e' xs].
    + rewrite decide_True by reflexivity. cbn [fmap list_fmap join].
      now rewrite string_app_nil_r, !string_app_assoc.
    + rewrite decide_False by discriminate.
      cbn [fmap list_fmap join]. now rewrite !string_app_assoc.
Qed.
